(** * Vampire: saturation loop (LRS), rebalancing inverters, CASC scheduler
      and literal index -- a shallow embedding and its verified properties.

    The development follows the source files
      - [Saturation/LRS.cpp]                 (module [LRS]),
      - [Kernel/Rebalancing/Inverters.cpp]   (module [Inverters]),
      - [CASC/CASCMode.hpp]                  (module [CASCMode]),
      - [Indexing/LiteralSubstitutionTree.hpp] (module [LiteralIndex]),
      - [Kernel/KBO.hpp]                     (module [KBO]).

    C++ machine integers are integers of [Z] with the wrap-around of their
    width written out; a division by zero, a C++ exception and a failed
    assertion are explicit outcomes. *)

From Stdlib Require Import ZArith Lia Bool List QArith Qcanon Reals Qreals
  ClassicalDescription.
From stdpp Require Import base tactics option list strings gmap.
Import ListNotations.

Set Default Proof Using "Type".
Set Warnings "-clear-no-such-hyp".

(** ** Machine integers *)

Module MachineInt.
Local Open Scope Z_scope.

(** Two's complement value of [z] in a signed type of [w] bits. *)
Definition wrap_signed (w : Z) (z : Z) : Z :=
  (z + 2 ^ (w - 1)) mod 2 ^ w - 2 ^ (w - 1).

(** Value of [z] in an unsigned type of [w] bits. *)
Definition wrap_unsigned (w : Z) (z : Z) : Z := z mod 2 ^ w.

(** [int], [long long] and [unsigned] of the platforms Vampire builds on. *)
Definition int (z : Z) : Z := wrap_signed 32 z.
Definition llong (z : Z) : Z := wrap_signed 64 z.
Definition unsigned (z : Z) : Z := wrap_unsigned 32 z.

Definition in_int (z : Z) : Prop := - 2 ^ 31 <= z < 2 ^ 31.
Definition in_llong (z : Z) : Prop := - 2 ^ 63 <= z < 2 ^ 63.
Definition in_unsigned (z : Z) : Prop := 0 <= z < 2 ^ 32.

Lemma int_exact z : in_int z -> int z = z.
Proof.
  unfold in_int, int, wrap_signed. intros H.
  rewrite Z.mod_small; lia.
Qed.

Lemma llong_exact z : in_llong z -> llong z = z.
Proof.
  unfold in_llong, llong, wrap_signed. intros H.
  rewrite Z.mod_small; lia.
Qed.

Lemma unsigned_exact z : in_unsigned z -> unsigned z = z.
Proof.
  unfold in_unsigned, unsigned, wrap_unsigned. intros H.
  rewrite Z.mod_small; lia.
Qed.

Lemma int_range z : in_int (int z).
Proof.
  unfold in_int, int, wrap_signed.
  pose proof (Z.mod_pos_bound (z + 2 ^ (32 - 1)) (2 ^ 32) ltac:(lia)).
  change (2 ^ (32 - 1)) with 2147483648 in *.
  change (2 ^ 32) with 4294967296 in *.
  change (2 ^ 31) with 2147483648. lia.
Qed.

Lemma unsigned_range z : in_unsigned (unsigned z).
Proof.
  unfold in_unsigned, unsigned, wrap_unsigned.
  apply Z.mod_pos_bound. lia.
Qed.

(** C++ [/] on [long long]: truncation towards zero; undefined for a zero
    divisor. *)
Definition llong_div (a b : Z) : option Z :=
  if b =? 0 then None else Some (llong (Z.quot a b)).

End MachineInt.

(** ** Saturation/LRS.cpp *)

Module LRS.
Import MachineInt.
Local Open Scope Z_scope.

(** *** [LRS::shouldUpdateLimits]

    The function-local [static unsigned cnt] is threaded through as state;
    [weightLimited] and [ageLimited] are the two answers of [getLimits()]. *)
Definition shouldUpdateLimits (weightLimited ageLimited : bool) (cnt : Z)
  : bool * Z :=
  let cnt := unsigned (cnt + 1) in
  if (cnt =? 500) || ((weightLimited || ageLimited) && (50 <? cnt))
  then (true, 0)
  else (false, cnt).

(** The counter after [n] calls made under unchanged limits, with the list
    of answers (oldest first). *)
Fixpoint shouldUpdateLimits_calls (wl al : bool) (n : nat) (cnt : Z)
  : list bool * Z :=
  match n with
  | O => ([], cnt)
  | S n' =>
      let '(b, cnt1) := shouldUpdateLimits wl al cnt in
      let '(bs, cnt2) := shouldUpdateLimits_calls wl al n' cnt1 in
      (b :: bs, cnt2)
  end.

(** *** [LRS::estimatedReachableCount]

    What the function reads from [env] and from the algorithm object.  The
    getters are declared in [Shell/Options.hpp], [Shell/Statistics.hpp] and
    [Lib/Timer.hpp]; the locals they are stored in are [int] and
    [long long], and [_startTime] is an [int] member. *)
Record Environment := {
  activeClauses : Z;            (* env.statistics->activeClauses *)
  elapsedMilliseconds : Z;      (* env.timer->elapsedMilliseconds() *)
  lrsFirstTimeCheck : Z;        (* env.options->lrsFirstTimeCheck() *)
  timeLimitInDeciseconds : Z;   (* env.options->timeLimitInDeciseconds() *)
  simulatedTimeLimit : Z;       (* env.options->simulatedTimeLimit() *)
  startTime : Z                 (* _startTime *)
}.

Section Locals.
Variable env : Environment.

(** [long long processed=env.statistics->activeClauses;] *)
Definition processed : Z := llong (activeClauses env).
(** [int currTime=env.timer->elapsedMilliseconds();] *)
Definition currTime : Z := int (elapsedMilliseconds env).
(** [long long timeSpent=currTime-_startTime;] *)
Definition timeSpent : Z := llong (int (currTime - int (startTime env))).
(** [int firstCheck=lrsFirstTimeCheck()*timeLimitInDeciseconds();] *)
Definition firstCheck : Z :=
  int (int (lrsFirstTimeCheck env) * int (timeLimitInDeciseconds env)).
(** [timeLeft], assigned in either branch of the test on
    [simulatedTimeLimit()]. *)
Definition timeLeft : Z :=
  if negb (int (simulatedTimeLimit env) =? 0)
  then llong (int (int (int (simulatedTimeLimit env) * 100) - currTime))
  else llong (int (int (int (timeLimitInDeciseconds env) * 100) - currTime)).
End Locals.

(** Control reaches either one of the two [return -1] or the division of the
    last line, whose operands are then [(dividend, divisor)]. *)
Inductive reached :=
| EarlyReturn (r : Z)
| Division (dividend divisor : Z).

Definition estimatedReachableCount_control (env : Environment) : reached :=
  if timeSpent env <? firstCheck env then EarlyReturn (-1)
  else
    if (timeLeft env <=? 0) || (processed env <=? 10) then EarlyReturn (-1)
    else Division (llong (processed env * timeLeft env)) (timeSpent env).

(** [None] is the undefined behaviour of a division by zero. *)
Definition estimatedReachableCount (env : Environment) : option Z :=
  match estimatedReachableCount_control env with
  | EarlyReturn r => Some r
  | Division a b => llong_div a b
  end.

(** The quotient the last line of the function computes. *)
Definition estimate (env : Environment) : Z :=
  llong (Z.quot (llong (processed env * timeLeft env)) (timeSpent env)).

(** Values within the range of their C++ types make every local the
    mathematical expression the comments of the source give for it. *)
Definition exact_arithmetic (env : Environment) : Prop :=
  in_int (elapsedMilliseconds env) /\ in_int (startTime env) /\
  in_int (lrsFirstTimeCheck env) /\ in_int (timeLimitInDeciseconds env) /\
  in_int (simulatedTimeLimit env) /\ in_llong (activeClauses env) /\
  in_int (elapsedMilliseconds env - startTime env) /\
  in_int (lrsFirstTimeCheck env * timeLimitInDeciseconds env) /\
  in_int (simulatedTimeLimit env * 100) /\
  in_int (simulatedTimeLimit env * 100 - elapsedMilliseconds env) /\
  in_int (timeLimitInDeciseconds env * 100) /\
  in_int (timeLimitInDeciseconds env * 100 - elapsedMilliseconds env).

Definition budget (env : Environment) : Z :=
  if simulatedTimeLimit env =? 0 then timeLimitInDeciseconds env
  else simulatedTimeLimit env.

Lemma in_int_llong z : in_int z -> in_llong z.
Proof. unfold in_int, in_llong. lia. Qed.

Lemma locals_exact env :
  exact_arithmetic env ->
  processed env = activeClauses env /\
  timeSpent env = elapsedMilliseconds env - startTime env /\
  firstCheck env = lrsFirstTimeCheck env * timeLimitInDeciseconds env /\
  timeLeft env = budget env * 100 - elapsedMilliseconds env.
Proof.
  intros (Hc & Hs & Hl & Ht & Hsim & Ha & Hd & Hp & Hs1 & Hs2 & Ht1 & Ht2).
  unfold processed, timeSpent, firstCheck, timeLeft, currTime, budget.
  rewrite (llong_exact _ Ha), (int_exact _ Hc), (int_exact _ Hs),
    (int_exact _ Hl), (int_exact _ Ht), (int_exact _ Hsim),
    (int_exact _ Hd), (int_exact _ Hp), (int_exact _ Hs1),
    (int_exact _ Ht1), (int_exact _ Hs2), (int_exact _ Ht2).
  rewrite !llong_exact by (apply in_int_llong; assumption).
  repeat split; try reflexivity.
  destruct (simulatedTimeLimit env =? 0); reflexivity.
Qed.

(** *** [LRS::doSaturation]

    The loop calls into the [SaturationAlgorithm] base class, the clause
    containers and [env]; none of these is defined in [LRS.cpp].  They are the
    fields of the interface below, acting on the state [W] of the prover.  A
    call either returns (with the new state) or ends in a [fault]: a C++
    exception, a violated assertion ([ASS], [ASS_EQ]) or undefined behaviour. *)

Inductive fault := Exception | AssertionViolation | UndefinedBehaviour.

Inductive outcome (W A : Type) :=
| Ok (a : A) (w : W)
| Fault (f : fault).
Arguments Ok {W A} a w.
Arguments Fault {W A} f.

Definition M (W A : Type) : Type := W -> outcome W A.

Definition ret {W A} (a : A) : M W A := fun w => Ok a w.

Definition bind {W A B} (m : M W A) (k : A -> M W B) : M W B :=
  fun w => match m w with
           | Ok a w' => k a w'
           | Fault f => Fault f
           end.

Definition ASS {W} (b : bool) : M W unit :=
  fun w => if b then Ok tt w else Fault AssertionViolation.

Definition read {W A} (f : W -> A) : M W A := fun w => Ok (f w) w.

Declare Scope lrs_scope.
Delimit Scope lrs_scope with lrs.
Notation "x <- m ;; k" := (bind m (fun x => k))
  (at level 100, m at next level, right associativity) : lrs_scope.
Notation "m ;; k" := (bind m (fun _ => k))
  (at level 100, right associativity) : lrs_scope.

(** [Statistics::TerminationReason], carried by a [SaturationResult]. *)
Inductive TerminationReason :=
| REFUTATION | SATISFIABLE | REFUTATION_NOT_FOUND
| TIME_LIMIT | MEMORY_LIMIT | UNKNOWN.

Definition SaturationResult := TerminationReason.

(** [Clause::Store]. *)
Inductive Store := NONE | UNPROCESSED | PASSIVE | ACTIVE | SELECTED.

Definition Store_eqb (a b : Store) : bool :=
  match a, b with
  | NONE, NONE | UNPROCESSED, UNPROCESSED | PASSIVE, PASSIVE
  | ACTIVE, ACTIVE | SELECTED, SELECTED => true
  | _, _ => false
  end.

Class SaturationAlgorithm (W Clause : Type) := {
  newClausesToUnprocessed : M W unit;
  unprocessed_isEmpty : W -> bool;          (* _unprocessed->isEmpty() *)
  unprocessed_pop : M W Clause;             (* _unprocessed->pop() *)
  isRefutation : Clause -> bool;
  forwardSimplify : Clause -> M W bool;
  backwardSimplify : Clause -> M W unit;
  addToPassive : Clause -> M W bool;
  store : Clause -> W -> Store;             (* c->store() *)
  setStore : Clause -> Store -> M W unit;   (* c->setStore(s) *)
  simplCont_add : Clause -> M W unit;       (* _simplCont.add(c) *)
  timeLimitReached : W -> bool;             (* env.timeLimitReached() *)
  weightLimited : W -> bool;                (* getLimits()->weightLimited() *)
  ageLimited : W -> bool;                   (* getLimits()->ageLimited() *)
  environment : W -> Environment;
  passive_updateLimits : Z -> M W unit;     (* _passive->updateLimits(n) *)
  onAllProcessed : M W unit;
  clausesFlushed : W -> bool;
  passive_isEmpty : W -> bool;              (* _passive->isEmpty() *)
  passive_popSelected : M W Clause;         (* _passive->popSelected() *)
  activate : Clause -> M W bool;
  handleUnsuccessfulActivation : Clause -> M W unit;
  options_complete : W -> bool              (* env.options->complete() *)
}.

(** Program points of [doSaturation], named by the source line control is
    about to execute. *)
Inductive point :=
| L85    (* top of [for (;;)] *)
| L87    (* test of [while (! _unprocessed->isEmpty())] *)
| L113   (* just after [_passive->updateLimits(estimatedReachable)] *)
| L120   (* [onAllProcessed()] *)
| L121   (* [if(!clausesFlushed())] *)
| L126.  (* [if (_passive->isEmpty())] *)

Inductive control :=
| At (p : point)
| Return (r : SaturationResult)
| Abort (f : fault).

Section Loop.
Context {W Clause : Type} {Alg : SaturationAlgorithm W Clause}.
Local Open Scope lrs_scope.

(** The state of a run: the prover's state, the local [complete] and the
    static counter of [shouldUpdateLimits]. *)
Record config := {
  pc : control;
  world : W;
  complete : bool;
  cnt : Z
}.

Definition goto (p : point) (w : W) (c : bool) (n : Z) : config :=
  {| pc := At p; world := w; complete := c; cnt := n |}.

(** Lines 88-104: one clause taken from [_unprocessed]. *)
Definition processUnprocessed : M W unit :=
  c <- unprocessed_pop ;;
  ASS (negb (isRefutation c)) ;;
  simplified <- forwardSimplify c ;;
  inPassive <- (if simplified : bool
                then backwardSimplify c ;; addToPassive c
                else ret false) ;;
  (if inPassive : bool
   then (s <- read (store c) ;; ASS (Store_eqb s PASSIVE)) ;;
        simplCont_add c
   else (s <- read (store c) ;; ASS (Store_eqb s UNPROCESSED)) ;;
        setStore c NONE) ;;
  newClausesToUnprocessed.

(** Lines 130-135: the given clause is selected and activated. *)
Definition activateSelected : M W unit :=
  c <- passive_popSelected ;;
  isActivated <- activate c ;;
  if isActivated : bool then ret tt else handleUnsuccessfulActivation c.

Definition step (s : config) : config :=
  let w := world s in
  let c := complete s in
  let n := cnt s in
  match pc s with
  | At L85 =>
      match newClausesToUnprocessed w with
      | Ok _ w1 => goto L87 w1 c n
      | Fault f => {| pc := Abort f; world := w; complete := c; cnt := n |}
      end
  | At L87 =>
      if unprocessed_isEmpty w then goto L120 w c n
      else
        match processUnprocessed w with
        | Fault f => {| pc := Abort f; world := w; complete := c; cnt := n |}
        | Ok _ w1 =>
            if timeLimitReached w1
            then {| pc := Return TIME_LIMIT; world := w1;
                    complete := c; cnt := n |}
            else
              let '(update, n1) :=
                shouldUpdateLimits (weightLimited w1) (ageLimited w1) n in
              if update : bool then
                match estimatedReachableCount (environment w1) with
                | None => {| pc := Abort UndefinedBehaviour; world := w1;
                             complete := c; cnt := n1 |}
                | Some estimatedReachable =>
                    if 0 <=? estimatedReachable then
                      match passive_updateLimits estimatedReachable w1 with
                      | Ok _ w2 => goto L113 w2 c n1
                      | Fault f => {| pc := Abort f; world := w1;
                                      complete := c; cnt := n1 |}
                      end
                    else goto L87 w1 c n1
                end
              else goto L87 w1 c n1
        end
  | At L113 =>
      if c then goto L87 w (negb (weightLimited w) && negb (ageLimited w)) n
      else goto L87 w c n
  | At L120 =>
      match onAllProcessed w with
      | Ok _ w1 => goto L121 w1 c n
      | Fault f => {| pc := Abort f; world := w; complete := c; cnt := n |}
      end
  | At L121 =>
      if negb (clausesFlushed w) then goto L85 w c n else goto L126 w c n
  | At L126 =>
      if passive_isEmpty w
      then {| pc := Return (if c then SATISFIABLE else REFUTATION_NOT_FOUND);
              world := w; complete := c; cnt := n |}
      else
        match activateSelected w with
        | Fault f => {| pc := Abort f; world := w; complete := c; cnt := n |}
        | Ok _ w1 =>
            if timeLimitReached w1
            then {| pc := Return TIME_LIMIT; world := w1;
                    complete := c; cnt := n |}
            else goto L85 w1 c n
        end
  | Return _ | Abort _ => s
  end.

Fixpoint run (k : nat) (s : config) : config :=
  match k with
  | O => s
  | S k' => run k' (step s)
  end.

(** Entry of [doSaturation]: [bool complete=env.options->complete();]. *)
Definition doSaturation_entry (w : W) (n : Z) : config :=
  goto L85 w (options_complete w) n.

(** [doSaturation], started in [w] with the static counter at [n], returns
    [r]. *)
Definition doSaturation_returns (w : W) (n : Z) (r : SaturationResult)
  : Prop :=
  exists k, pc (run k (doSaturation_entry w n)) = Return r.

(** The limits are active in the state of [s]. *)
Definition limits_active (s : config) : bool :=
  weightLimited (world s) || ageLimited (world s).

(** [s] is the exhaustion moment: the inner loop has drained
    [_unprocessed], [onAllProcessed] left the clauses flushed and
    [_passive] is empty. *)
Definition exhausted (s : config) : Prop :=
  pc s = At L126 /\ passive_isEmpty (world s) = true.

(** The same moment seen from the test of the inner loop: [_unprocessed]
    is empty, and the call of [onAllProcessed] that follows returns with
    the clauses flushed and [_passive] empty. *)
Definition exhaustion_moment (s : config) : Prop :=
  pc s = At L87 /\ unprocessed_isEmpty (world s) = true /\
  exists u w', onAllProcessed (world s) = Ok u w' /\
               clausesFlushed w' = true /\ passive_isEmpty w' = true.
End Loop.
Arguments config : clear implicits.

(** *** A small prover state to run the loop on

    Clauses are numbers; [_unprocessed] and [_passive] are lists; every
    clause passes forward simplification and enters [_passive];
    [updateLimits] activates the weight limit; activation always succeeds
    and derives nothing. *)
Module Toy.
Record state := {
  t_unprocessed : list nat;
  t_passive : list nat;
  t_limited : bool;
  t_env : Environment
}.

Definition pop_unprocessed : M state nat := fun w =>
  match t_unprocessed w with
  | c :: rest =>
      Ok c {| t_unprocessed := rest; t_passive := t_passive w;
              t_limited := t_limited w; t_env := t_env w |}
  | [] => Fault UndefinedBehaviour
  end.

Definition pop_passive : M state nat := fun w =>
  match t_passive w with
  | c :: rest =>
      Ok c {| t_unprocessed := t_unprocessed w; t_passive := rest;
              t_limited := t_limited w; t_env := t_env w |}
  | [] => Fault UndefinedBehaviour
  end.

Definition add_passive (c : nat) : M state bool := fun w =>
  Ok true {| t_unprocessed := t_unprocessed w;
             t_passive := t_passive w ++ [c];
             t_limited := t_limited w; t_env := t_env w |}.

Definition update_limits (n : Z) : M state unit := fun w =>
  Ok tt {| t_unprocessed := t_unprocessed w; t_passive := t_passive w;
           t_limited := true; t_env := t_env w |}.

Definition store_of (c : nat) (w : state) : Store :=
  if existsb (Nat.eqb c) (t_passive w) then PASSIVE else UNPROCESSED.

#[global] Instance algorithm : SaturationAlgorithm state nat := {|
  newClausesToUnprocessed := ret tt;
  unprocessed_isEmpty w := match t_unprocessed w with [] => true | _ => false end;
  unprocessed_pop := pop_unprocessed;
  isRefutation _ := false;
  forwardSimplify _ := ret true;
  backwardSimplify _ := ret tt;
  addToPassive := add_passive;
  store := store_of;
  setStore _ _ := ret tt;
  simplCont_add _ := ret tt;
  timeLimitReached _ := false;
  weightLimited := t_limited;
  ageLimited _ := false;
  environment := t_env;
  passive_updateLimits := update_limits;
  onAllProcessed := ret tt;
  clausesFlushed _ := true;
  passive_isEmpty w := match t_passive w with [] => true | _ => false end;
  passive_popSelected := pop_passive;
  activate _ := ret true;
  handleUnsuccessfulActivation _ := ret tt;
  options_complete _ := true
|}.

(** Scenario S6 of the specification halfway through a 60 s run:
    [firstCheck] is 6000 ms, 30000 ms are spent, 1000 clauses activated. *)
Definition halfway : Environment := {|
  activeClauses := 1000; elapsedMilliseconds := 30000;
  lrsFirstTimeCheck := 10; timeLimitInDeciseconds := 600;
  simulatedTimeLimit := 0; startTime := 0 |}.

(** The time limit passed 1 s ago: [timeLeft] is -1000. *)
Definition overdue : Environment := {|
  activeClauses := 100; elapsedMilliseconds := 2000;
  lrsFirstTimeCheck := 5; timeLimitInDeciseconds := 10;
  simulatedTimeLimit := 0; startTime := 0 |}.

(** No time limit, a simulated one of 1 s, and eleven clauses activated
    within the first millisecond. *)
Definition immediate : Environment := {|
  activeClauses := 11; elapsedMilliseconds := 0;
  lrsFirstTimeCheck := 5; timeLimitInDeciseconds := 0;
  simulatedTimeLimit := 10; startTime := 0 |}.

Definition empty_problem : state := {|
  t_unprocessed := []; t_passive := []; t_limited := false;
  t_env := halfway |}.

Definition one_clause : state := {|
  t_unprocessed := [7%nat]; t_passive := []; t_limited := false;
  t_env := halfway |}.
End Toy.

(** *** Properties of [shouldUpdateLimits] *)

Lemma shouldUpdateLimits_increment cnt :
  0 <= cnt < 2 ^ 32 - 1 -> unsigned (cnt + 1) = cnt + 1.
Proof. intros Hc. apply unsigned_exact. unfold in_unsigned. lia. Qed.

(** C6. Every call increments the counter; the call answers [true], and
    resets the counter to zero, exactly when the incremented counter is 500
    or a weight or age limit is active and the incremented counter exceeds
    50; every other call answers [false] and keeps the incremented counter. *)
Theorem shouldUpdateLimits_cadence (wl al : bool) (cnt : Z) :
  let n := unsigned (cnt + 1) in
  let r := shouldUpdateLimits wl al cnt in
  (fst r = true <-> n = 500 \/ ((wl = true \/ al = true) /\ 50 < n)) /\
  (fst r = true -> snd r = 0) /\
  (fst r = false -> snd r = n).
Proof.
  intros n r. subst r. unfold shouldUpdateLimits. fold n.
  destruct (n =? 500) eqn:E500; simpl.
  - apply Z.eqb_eq in E500. repeat split; auto; discriminate.
  - apply Z.eqb_neq in E500.
    destruct (50 <? n) eqn:E50; [apply Z.ltb_lt in E50 | apply Z.ltb_ge in E50];
      destruct wl, al; simpl; repeat split; auto; try discriminate;
      intros [?|[[?|?] ?]]; try discriminate; lia.
Qed.

Lemma shouldUpdateLimits_cadence_witness :
  snd (shouldUpdateLimits false false 499) = 0 /\
  snd (shouldUpdateLimits true false 7) = unsigned (7 + 1).
Proof.
  split.
  - apply (proj1 (proj2 (shouldUpdateLimits_cadence false false 499))).
    reflexivity.
  - apply (proj2 (proj2 (shouldUpdateLimits_cadence true false 7))).
    reflexivity.
Defined.

(** The counter stays below 500, so it never wraps around. *)
Lemma shouldUpdateLimits_bound wl al cnt :
  0 <= cnt < 500 -> 0 <= snd (shouldUpdateLimits wl al cnt) < 500.
Proof.
  intros Hc. unfold shouldUpdateLimits.
  rewrite shouldUpdateLimits_increment by lia.
  destruct (cnt + 1 =? 500) eqn:E; simpl.
  - lia.
  - apply Z.eqb_neq in E.
    destruct ((wl || al) && (50 <? cnt + 1)); simpl; lia.
Qed.

(** From a fresh counter, without limits the 500th call is the first to
    answer [true]; with a limit active it is the 51st. *)
Lemma shouldUpdateLimits_period_unlimited :
  shouldUpdateLimits_calls false false 500 0 =
  (repeat false 499 ++ [true], 0).
Proof. vm_compute. reflexivity. Qed.

Lemma shouldUpdateLimits_period_limited (wl al : bool) :
  wl || al = true ->
  shouldUpdateLimits_calls wl al 51 0 = (repeat false 50 ++ [true], 0).
Proof. destruct wl, al; intros Hl; try discriminate; vm_compute; reflexivity. Qed.

(** *** Properties of [estimatedReachableCount] *)

(** C2, as the code has it.  Before [firstCheck] the result is -1; from then
    on it is -1 when no time is left or at most 10 clauses were activated;
    otherwise, for a non-zero elapsed time, it is the quotient
    [processed * timeLeft / elapsed] truncated towards zero.  A result other
    than the marker -1 is that quotient, so no estimate exceeds it. *)
Theorem estimatedReachableCount_cases (env : Environment) :
  (timeSpent env < firstCheck env ->
   estimatedReachableCount env = Some (-1)) /\
  (firstCheck env <= timeSpent env ->
   timeLeft env <= 0 \/ processed env <= 10 ->
   estimatedReachableCount env = Some (-1)) /\
  (firstCheck env <= timeSpent env ->
   0 < timeLeft env -> 10 < processed env -> timeSpent env <> 0 ->
   estimatedReachableCount env = Some (estimate env)) /\
  (forall r, estimatedReachableCount env = Some r -> r <> -1 ->
             r = estimate env).
Proof.
  unfold estimatedReachableCount, estimatedReachableCount_control, estimate,
    llong_div.
  repeat split.
  - intros Hlt. apply Z.ltb_lt in Hlt. rewrite Hlt. reflexivity.
  - intros Hge Hor. apply Z.ltb_ge in Hge. rewrite Hge.
    destruct Hor as [Ht | Hp].
    + apply Z.leb_le in Ht. rewrite Ht. reflexivity.
    + apply Z.leb_le in Hp. rewrite Hp, orb_true_r. reflexivity.
  - intros Hge Ht Hp Hz. apply Z.ltb_ge in Hge. rewrite Hge.
    apply Z.leb_gt in Ht. apply Z.leb_gt in Hp. rewrite Ht, Hp. simpl.
    apply Z.eqb_neq in Hz. rewrite Hz. reflexivity.
  - intros r.
    destruct (timeSpent env <? firstCheck env); [intros [= <-]; congruence |].
    destruct ((timeLeft env <=? 0) || (processed env <=? 10));
      [intros [= <-]; congruence |].
    destruct (timeSpent env =? 0); [discriminate |].
    intros [= <-] _. reflexivity.
Qed.

Lemma estimatedReachableCount_cases_witness :
  estimatedReachableCount Toy.halfway = Some (estimate Toy.halfway) /\
  estimatedReachableCount Toy.overdue = Some (-1) /\
  estimate Toy.halfway = 1000.
Proof.
  split; [| split].
  - apply (proj1 (proj2 (proj2 (estimatedReachableCount_cases Toy.halfway))));
      vm_compute; congruence.
  - apply (proj1 (proj2 (estimatedReachableCount_cases Toy.overdue)));
      vm_compute; [congruence | left; congruence].
  - reflexivity.
Defined.

(** Scenario S6 of the specification: no estimate at 5% of the time limit,
    1000 at 50% with 1000 clauses activated. *)
Lemma estimatedReachableCount_S6 :
  estimatedReachableCount
    {| activeClauses := 1000; elapsedMilliseconds := 3000;
       lrsFirstTimeCheck := 10; timeLimitInDeciseconds := 600;
       simulatedTimeLimit := 0; startTime := 0 |} = Some (-1) /\
  estimatedReachableCount Toy.halfway = Some 1000.
Proof. split; reflexivity. Qed.

(** C2 as stated does not hold: one second after the time limit the result
    is the marker -1, which exceeds the quotient
    [processed * timeLeft / elapsed = 100 * (-1000) / 2000 = -50]. *)
Lemma estimatedReachableCount_exceeds_quotient :
  exact_arithmetic Toy.overdue /\
  firstCheck Toy.overdue <= timeSpent Toy.overdue /\
  estimatedReachableCount Toy.overdue = Some (-1) /\
  Z.quot (processed Toy.overdue * timeLeft Toy.overdue)
         (timeSpent Toy.overdue) = -50 /\
  ~ (-1 <= Z.quot (processed Toy.overdue * timeLeft Toy.overdue)
                  (timeSpent Toy.overdue)).
Proof.
  repeat split; vm_compute; congruence.
Qed.

(** With every value in the range of its type the estimate is the
    mathematical quotient of the specification. *)
Lemma estimate_exact env :
  exact_arithmetic env ->
  in_llong (activeClauses env *
            (budget env * 100 - elapsedMilliseconds env)) ->
  0 < elapsedMilliseconds env - startTime env ->
  estimate env =
  Z.quot (activeClauses env * (budget env * 100 - elapsedMilliseconds env))
         (elapsedMilliseconds env - startTime env).
Proof.
  intros Hex Hprod Hpos. unfold estimate.
  destruct (locals_exact env Hex) as (-> & -> & _ & ->).
  rewrite (llong_exact _ Hprod).
  apply llong_exact.
  set (a := activeClauses env * _) in *.
  set (b := elapsedMilliseconds env - startTime env) in *.
  unfold in_llong in *.
  clearbody a b.
  destruct (Z_le_gt_dec 0 a) as [Ha | Ha].
  - pose proof (Z.quot_pos a b Ha Hpos).
    assert (Z.quot a b <= a) by (apply Z.quot_le_upper_bound; nia).
    lia.
  - pose proof (Z.quot_opp_l a b ltac:(lia)) as Ho.
    pose proof (Z.quot_pos (- a) b ltac:(lia) Hpos).
    assert (Z.quot (- a) b <= - a) by (apply Z.quot_le_upper_bound; nia).
    lia.
Qed.

(** C10. The division is guarded by [timeSpent < firstCheck] alone: its
    divisor is [timeSpent], known only to be at least [firstCheck].  So the
    divisor is positive whenever [firstCheck] is at least 1; with
    [firstCheck] zero, no time elapsed, more than 10 clauses activated and
    time left, control reaches the division with divisor zero. *)
Theorem estimatedReachableCount_division_guard (env : Environment) :
  (forall a b, estimatedReachableCount_control env = Division a b ->
               b = timeSpent env /\ firstCheck env <= b) /\
  (1 <= firstCheck env ->
   forall a b, estimatedReachableCount_control env = Division a b -> 0 < b) /\
  (firstCheck env = 0 -> timeSpent env = 0 ->
   10 < processed env -> 0 < timeLeft env ->
   estimatedReachableCount_control env =
     Division (llong (processed env * timeLeft env)) 0 /\
   estimatedReachableCount env = None).
Proof.
  assert (Hdiv : forall a b,
             estimatedReachableCount_control env = Division a b ->
             b = timeSpent env /\ firstCheck env <= b).
  { intros a b. unfold estimatedReachableCount_control.
    destruct (timeSpent env <? firstCheck env) eqn:E; [discriminate |].
    destruct ((timeLeft env <=? 0) || (processed env <=? 10));
      [discriminate |].
    intros [= _ <-]. apply Z.ltb_ge in E. auto. }
  split; [exact Hdiv | split].
  - intros H1 a b Hab. destruct (Hdiv a b Hab). lia.
  - intros Hf Hs Hp Ht.
    assert (Hc : estimatedReachableCount_control env =
                 Division (llong (processed env * timeLeft env)) 0).
    { unfold estimatedReachableCount_control. rewrite Hf, Hs. simpl.
      apply Z.leb_gt in Hp. apply Z.leb_gt in Ht. rewrite Hp, Ht.
      reflexivity. }
    split; [exact Hc |].
    unfold estimatedReachableCount. rewrite Hc. reflexivity.
Qed.

Lemma estimatedReachableCount_division_guard_witness :
  (forall a b, estimatedReachableCount_control Toy.halfway = Division a b ->
               0 < b) /\
  estimatedReachableCount Toy.immediate = None.
Proof.
  split.
  - apply (proj1 (proj2 (estimatedReachableCount_division_guard Toy.halfway))).
    vm_compute. congruence.
  - apply (proj2 (proj2 (estimatedReachableCount_division_guard Toy.immediate)));
      vm_compute; congruence.
Defined.

(** *** Properties of [doSaturation] *)

Section LoopProperties.
Context {W Clause : Type} {Alg : SaturationAlgorithm W Clause}.
Implicit Types s : config W.

Ltac step_cases s :=
  unfold step, goto;
  let Hpc := fresh "Hpc" in
  destruct (pc s) as [[]|?|?] eqn:Hpc; simpl;
  repeat case_match; simpl.

Lemma run_S k s : run (S k) s = step (run k s).
Proof.
  revert s. induction k as [|k IH]; intros s; [reflexivity |].
  change (run (S (S k)) s) with (run (S k) (step s)).
  rewrite IH. reflexivity.
Qed.

Lemma run_plus a b s : run (a + b) s = run b (run a s).
Proof.
  revert s. induction a as [|a IH]; intros s; [reflexivity |].
  simpl. apply IH.
Qed.

Lemma step_final s : (forall p, pc s <> At p) -> step s = s.
Proof.
  intros Hp. unfold step. destruct (pc s) as [p|r|f] eqn:E; auto.
  destruct (Hp p). reflexivity.
Qed.

Lemma run_final k s : (forall p, pc s <> At p) -> run k s = s.
Proof.
  intros Hp. induction k as [|k IH]; [reflexivity |].
  simpl. rewrite (step_final s Hp). exact IH.
Qed.

Lemma step_into_L126 s :
  pc (step s) = At L126 ->
  pc s = At L121 /\ clausesFlushed (world s) = true /\
  world (step s) = world s /\ complete (step s) = complete s.
Proof.
  step_cases s; intros Hs; try discriminate; try congruence.
  repeat split; auto. destruct (clausesFlushed (world s)); auto; discriminate.
Qed.

Lemma step_into_L121 s :
  pc (step s) = At L121 ->
  pc s = At L120 /\
  (exists u, onAllProcessed (world s) = Ok u (world (step s))) /\
  complete (step s) = complete s.
Proof.
  step_cases s; intros Hs; try discriminate; try congruence.
  repeat split; eauto.
Qed.

Lemma step_into_L120 s :
  pc (step s) = At L120 ->
  pc s = At L87 /\ unprocessed_isEmpty (world s) = true /\
  world (step s) = world s /\ complete (step s) = complete s.
Proof.
  step_cases s; intros Hs; try discriminate; try congruence.
  repeat split; auto.
Qed.

Lemma step_into_SATISFIABLE s :
  pc (step s) = Return SATISFIABLE ->
  pc s = Return SATISFIABLE \/ exhausted s /\ complete s = true.
Proof.
  unfold exhausted.
  step_cases s; intros Hs; try discriminate; try congruence; auto.
  left. congruence.
Qed.

Lemma step_complete_false s : complete s = false -> complete (step s) = false.
Proof.
  intros Hc. step_cases s; try assumption; congruence.
Qed.

Lemma run_complete_false k s :
  complete s = false -> complete (run k s) = false.
Proof.
  revert s. induction k as [|k IH]; intros s Hc; [exact Hc |].
  simpl. apply IH, step_complete_false, Hc.
Qed.

Lemma run_incomplete_not_SATISFIABLE k s :
  complete s = false -> pc s <> Return SATISFIABLE ->
  pc (run k s) <> Return SATISFIABLE.
Proof.
  intros Hc Hs. induction k as [|k IH]; [exact Hs |].
  rewrite run_S. intros Hr.
  destruct (step_into_SATISFIABLE _ Hr) as [Hp | [_ Ht]]; [auto |].
  rewrite (run_complete_false k s Hc) in Ht. discriminate.
Qed.

(** The first exhausted state of a run that returns [SATISFIABLE]. *)
Lemma run_SATISFIABLE_exhausted k s :
  pc (run k s) = Return SATISFIABLE -> pc s <> Return SATISFIABLE ->
  exists j, (j < k)%nat /\ exhausted (run j s) /\ complete (run j s) = true.
Proof.
  intros Hr Hs. induction k as [|k IH]; [contradiction |].
  rewrite run_S in Hr.
  destruct (step_into_SATISFIABLE _ Hr) as [Hp | [He Hc]].
  - destruct (IH Hp) as (j & Hj & He & Hc). exists j. split; [lia | auto].
  - exists k. split; [lia | auto].
Qed.

(** C1. When the run reaches the test of the inner loop with
    [_unprocessed] empty, and [onAllProcessed] then leaves the clauses
    flushed and [_passive] empty, [doSaturation] returns four steps later:
    [SATISFIABLE] if [complete] is true at that moment,
    [REFUTATION_NOT_FOUND] otherwise.  Conversely a run that returns
    [SATISFIABLE] went through such a moment with [complete] true. *)
Theorem doSaturation_exhaustion (w0 : W) (n0 : Z) :
  (forall k s,
      run k (doSaturation_entry w0 n0) = s -> exhaustion_moment s ->
      pc (run (k + 4) (doSaturation_entry w0 n0)) =
        Return (if complete s then SATISFIABLE else REFUTATION_NOT_FOUND) /\
      doSaturation_returns w0 n0
        (if complete s then SATISFIABLE else REFUTATION_NOT_FOUND)) /\
  (doSaturation_returns w0 n0 SATISFIABLE ->
   exists k s, run k (doSaturation_entry w0 n0) = s /\
               exhaustion_moment s /\ complete s = true).
Proof.
  split.
  - intros k s Hk (Hpc & Hempty & u & w' & Hall & Hflush & Hpassive).
    assert (Hrun : pc (run (k + 4) (doSaturation_entry w0 n0)) =
              Return (if complete s then SATISFIABLE
                      else REFUTATION_NOT_FOUND)).
    { rewrite run_plus, Hk.
      change (run 4 s) with (step (step (step (step s)))).
      assert (H1 : step s = goto L120 (world s) (complete s) (cnt s))
        by (unfold step; rewrite Hpc, Hempty; reflexivity).
      assert (H2 : step (goto L120 (world s) (complete s) (cnt s)) =
                   goto L121 w' (complete s) (cnt s))
        by (unfold step; simpl; rewrite Hall; reflexivity).
      assert (H3 : step (goto L121 w' (complete s) (cnt s)) =
                   goto L126 w' (complete s) (cnt s))
        by (unfold step; simpl; rewrite Hflush; reflexivity).
      rewrite H1, H2, H3. unfold step. simpl. rewrite Hpassive.
      reflexivity. }
    split; [exact Hrun | exists (k + 4)%nat; exact Hrun].
  - intros [k Hk].
    set (e := doSaturation_entry w0 n0) in *.
    destruct (run_SATISFIABLE_exhausted k e Hk ltac:(discriminate))
      as (j & _ & [Hpc Hpassive] & Hc).
    destruct j as [|j]; [discriminate |].
    rewrite run_S in Hpc, Hpassive, Hc.
    destruct (step_into_L126 _ Hpc) as (Hpc1 & Hflush & Hw1 & Hc1).
    destruct j as [|j]; [discriminate |].
    rewrite run_S in Hpc, Hpassive, Hc, Hpc1, Hflush, Hw1, Hc1.
    destruct (step_into_L121 _ Hpc1) as (Hpc2 & [u Hall] & Hc2).
    destruct j as [|j]; [discriminate |].
    rewrite run_S in Hpc, Hpassive, Hc, Hpc1, Hflush, Hw1, Hc1, Hpc2,
      Hall, Hc2.
    set (s0 := run j e) in *.
    destruct (step_into_L120 _ Hpc2) as (Hpc3 & Hempty & Hw3 & Hc3).
    exists j, s0. split; [reflexivity |].
    split; [| congruence].
    split; [exact Hpc3 |]. split; [exact Hempty |].
    exists u, (world (step (step s0))).
    split; [congruence |]. split; [exact Hflush | congruence].
Qed.

(** C5. Right after a limit update that leaves the weight or the age
    limit active, [complete] is false; [complete] never goes from false to
    true; hence a run with such an update does not return [SATISFIABLE]. *)
Theorem doSaturation_limits_incomplete (w0 : W) (n0 : Z) :
  (forall s, pc s = At L113 -> limits_active s = true ->
             complete (step s) = false /\ pc (step s) = At L87) /\
  (forall s, complete s = false -> complete (step s) = false) /\
  (forall k s, run k (doSaturation_entry w0 n0) = s ->
               pc s = At L113 -> limits_active s = true ->
               ~ doSaturation_returns w0 n0 SATISFIABLE).
Proof.
  assert (Hupd : forall s, pc s = At L113 -> limits_active s = true ->
                           complete (step s) = false /\ pc (step s) = At L87).
  { intros s Hpc Hl. unfold limits_active in Hl. unfold step, goto.
    rewrite Hpc.
    destruct (complete s) eqn:Hc; simpl; [| auto].
    destruct (weightLimited (world s)), (ageLimited (world s));
      simpl in *; auto; discriminate. }
  split; [exact Hupd | split; [exact step_complete_false |]].
  intros k s Hk Hpc Hl [j Hj].
  set (e := doSaturation_entry w0 n0) in *.
  destruct (Hupd s Hpc Hl) as [Hc Hpc'].
  destruct (le_lt_dec j k) as [Hle | Hlt].
  - replace k with (j + (k - j))%nat in Hk by lia.
    rewrite run_plus, run_final in Hk by (rewrite Hj; discriminate).
    rewrite Hk, Hpc in Hj. discriminate.
  - replace j with (k + S (j - S k))%nat in Hj by lia.
    rewrite run_plus, Hk in Hj. simpl in Hj.
    revert Hj. apply run_incomplete_not_SATISFIABLE; [exact Hc |].
    rewrite Hpc'. discriminate.
Qed.
End LoopProperties.

Lemma doSaturation_exhaustion_witness :
  doSaturation_returns Toy.empty_problem 0 SATISFIABLE.
Proof.
  refine (proj2 (proj1 (doSaturation_exhaustion Toy.empty_problem 0) 1%nat
                   (run 1 (doSaturation_entry Toy.empty_problem 0))
                   eq_refl _)).
  split; [reflexivity |]. split; [reflexivity |].
  exists tt, Toy.empty_problem. repeat split; reflexivity.
Defined.

Lemma doSaturation_limits_incomplete_witness :
  ~ doSaturation_returns Toy.one_clause 499 SATISFIABLE.
Proof.
  apply (proj2 (proj2 (doSaturation_limits_incomplete Toy.one_clause 499))
           2%nat (run 2 (doSaturation_entry Toy.one_clause 499)) eq_refl);
    reflexivity.
Defined.

(** *** Further properties of [shouldUpdateLimits] and
    [estimatedReachableCount] *)

(** From a counter [c] below 500 and without limits, the next calls answer
    false [499 - c] times and then true; the counter is then zero. *)
Lemma shouldUpdateLimits_calls_unlimited (c : Z) :
  0 <= c < 500 ->
  shouldUpdateLimits_calls false false (S (Z.to_nat (499 - c))) c =
  (repeat false (Z.to_nat (499 - c)) ++ [true], 0).
Proof.
  remember (Z.to_nat (499 - c)) as n eqn:Hn. revert c Hn.
  induction n as [|n IH]; intros c Hn Hc.
  - assert (c = 499) as -> by lia. reflexivity.
  - change (shouldUpdateLimits_calls false false (S (S n)) c)
      with (let '(b, c1) := shouldUpdateLimits false false c in
            let '(bs, c2) := shouldUpdateLimits_calls false false (S n) c1 in
            (b :: bs, c2)).
    unfold shouldUpdateLimits.
    rewrite shouldUpdateLimits_increment by lia.
    replace (c + 1 =? 500) with false by (symmetry; apply Z.eqb_neq; lia).
    simpl orb. cbv iota beta.
    rewrite (IH (c + 1)) by lia. reflexivity.
Qed.

(** With a limit active, the next calls answer false [50 - c] times and
    then true when the counter [c] is below 50; from 50 on the very next
    call answers true. *)
Lemma shouldUpdateLimits_calls_limited (wl al : bool) (c : Z) :
  wl || al = true -> 0 <= c < 500 ->
  shouldUpdateLimits_calls wl al (S (Z.to_nat (50 - c))) c =
  (repeat false (Z.to_nat (50 - c)) ++ [true], 0).
Proof.
  intros Hl.
  remember (Z.to_nat (50 - c)) as n eqn:Hn. revert c Hn.
  induction n as [|n IH]; intros c Hn Hc.
  - change (shouldUpdateLimits_calls wl al 1 c)
      with (let '(b, c1) := shouldUpdateLimits wl al c in ([b], c1)).
    unfold shouldUpdateLimits.
    rewrite shouldUpdateLimits_increment by lia. rewrite Hl.
    replace (50 <? c + 1) with true by (symmetry; apply Z.ltb_lt; lia).
    rewrite orb_true_r. reflexivity.
  - change (shouldUpdateLimits_calls wl al (S (S n)) c)
      with (let '(b, c1) := shouldUpdateLimits wl al c in
            let '(bs, c2) := shouldUpdateLimits_calls wl al (S n) c1 in
            (b :: bs, c2)).
    unfold shouldUpdateLimits.
    rewrite shouldUpdateLimits_increment by lia.
    replace (c + 1 =? 500) with false by (symmetry; apply Z.eqb_neq; lia).
    replace (50 <? c + 1) with false by (symmetry; apply Z.ltb_ge; lia).
    rewrite andb_false_r. simpl orb. cbv iota beta.
    rewrite (IH (c + 1)) by lia. reflexivity.
Qed.

(** The distance between two updates: exactly [500 - c] calls from a
    counter [c] without limits, exactly [max 1 (51 - c)] calls with a limit
    active. *)
Theorem shouldUpdateLimits_distance (wl al : bool) (c : Z) :
  0 <= c < 500 ->
  let n := if wl || al then Z.to_nat (50 - c) else Z.to_nat (499 - c) in
  shouldUpdateLimits_calls wl al (S n) c = (repeat false n ++ [true], 0).
Proof.
  intros Hc. destruct (wl || al) eqn:Hl; cbv zeta.
  - apply shouldUpdateLimits_calls_limited; assumption.
  - apply orb_false_iff in Hl as [-> ->].
    apply shouldUpdateLimits_calls_unlimited, Hc.
Qed.

Lemma shouldUpdateLimits_distance_witness :
  shouldUpdateLimits_calls true false 41 10 = (repeat false 40 ++ [true], 0) /\
  shouldUpdateLimits_calls false false 1 499 = ([true], 0).
Proof.
  split.
  - apply (shouldUpdateLimits_distance true false 10). lia.
  - apply (shouldUpdateLimits_distance false false 499). lia.
Defined.

(** Without a time limit (and without a simulated one) there is never an
    estimate: the source notes "we end-up here even if there is no time
    timit". *)
Definition no_time_limit (env : Environment) : Prop :=
  timeLimitInDeciseconds env = 0 /\ simulatedTimeLimit env = 0 /\
  0 <= elapsedMilliseconds env < 2 ^ 31.

Theorem estimatedReachableCount_no_time_limit (env : Environment) :
  no_time_limit env -> estimatedReachableCount env = Some (-1).
Proof.
  intros (Ht & Hs & He).
  unfold estimatedReachableCount, estimatedReachableCount_control.
  destruct (timeSpent env <? firstCheck env); [reflexivity |].
  assert (Hleft : timeLeft env <= 0).
  { unfold timeLeft, currTime. rewrite Hs, Ht.
    change (int 0) with 0. change (0 * 100) with 0. change (int 0) with 0.
    change (negb (0 =? 0)) with false. cbv iota.
    rewrite (int_exact (elapsedMilliseconds env)) by (unfold in_int; lia).
    rewrite (int_exact (0 - elapsedMilliseconds env)) by (unfold in_int; lia).
    rewrite llong_exact by (unfold in_llong; lia). lia. }
  apply Z.leb_le in Hleft. rewrite Hleft. reflexivity.
Qed.

Lemma estimatedReachableCount_no_time_limit_witness :
  estimatedReachableCount
    {| activeClauses := 5000; elapsedMilliseconds := 123456;
       lrsFirstTimeCheck := 5; timeLimitInDeciseconds := 0;
       simulatedTimeLimit := 0; startTime := 7 |} = Some (-1).
Proof.
  apply estimatedReachableCount_no_time_limit.
  repeat split; simpl; lia.
Defined.

(** With every value in the range of its type and time elapsed since the
    start, the function returns, and its result is non-negative -- the
    caller then updates the limits -- exactly when the first check is due,
    time is left and more than 10 clauses were activated; the result is then
    the quotient of the specification and at most [processed * timeLeft]. *)
Theorem estimatedReachableCount_nonnegative (env : Environment) :
  exact_arithmetic env ->
  in_llong (activeClauses env *
            (budget env * 100 - elapsedMilliseconds env)) ->
  0 < elapsedMilliseconds env - startTime env ->
  exists r,
    estimatedReachableCount env = Some r /\
    (0 <= r <->
     lrsFirstTimeCheck env * timeLimitInDeciseconds env
       <= elapsedMilliseconds env - startTime env /\
     0 < budget env * 100 - elapsedMilliseconds env /\
     10 < activeClauses env) /\
    (0 <= r ->
     r = Z.quot (activeClauses env *
                 (budget env * 100 - elapsedMilliseconds env))
                (elapsedMilliseconds env - startTime env) /\
     r <= activeClauses env * (budget env * 100 - elapsedMilliseconds env)).
Proof.
  intros Hex Hprod Hpos.
  destruct (locals_exact env Hex) as (Hp & Hs & Hf & Hl).
  unfold estimatedReachableCount, estimatedReachableCount_control, llong_div.
  rewrite Hp, Hs, Hf, Hl.
  set (a := activeClauses env) in *.
  set (t := budget env * 100 - elapsedMilliseconds env) in *.
  set (e := elapsedMilliseconds env - startTime env) in *.
  set (f := lrsFirstTimeCheck env * timeLimitInDeciseconds env) in *.
  destruct (e <? f) eqn:Ef;
    [apply Z.ltb_lt in Ef | apply Z.ltb_ge in Ef].
  { exists (-1). split; [reflexivity |]. split; [split |]; lia. }
  destruct (t <=? 0) eqn:Et; [apply Z.leb_le in Et | apply Z.leb_gt in Et].
  { exists (-1). split; [reflexivity |]. split; [split |]; lia. }
  destruct (a <=? 10) eqn:Ea; [apply Z.leb_le in Ea | apply Z.leb_gt in Ea].
  { exists (-1). split; [reflexivity |]. split; [split |]; lia. }
  simpl orb. cbv iota.
  replace (e =? 0) with false by (symmetry; apply Z.eqb_neq; lia).
  assert (Hnn : 0 <= Z.quot (a * t) e) by (apply Z.quot_pos; nia).
  assert (Hle : Z.quot (a * t) e <= a * t)
    by (apply Z.quot_le_upper_bound; nia).
  exists (Z.quot (a * t) e). split.
  - rewrite (llong_exact _ Hprod). rewrite llong_exact; [reflexivity |].
    unfold in_llong in *. lia.
  - split; [split; intros; [lia | exact Hnn] |].
    intros _. split; [reflexivity | exact Hle].
Qed.

Lemma estimatedReachableCount_nonnegative_witness :
  exists r, estimatedReachableCount Toy.halfway = Some r /\ 0 <= r.
Proof.
  destruct (estimatedReachableCount_nonnegative Toy.halfway)
    as (r & Hr & Hiff & _).
  - vm_compute. repeat split; congruence.
  - vm_compute. split; congruence.
  - reflexivity.
  - exists r. split; [exact Hr |]. apply Hiff.
    vm_compute. repeat split; congruence.
Defined.

(** *** Invariants of the loop of [doSaturation] *)

Section LoopInvariants.
Context {W Clause : Type} {Alg : SaturationAlgorithm W Clause}.
Implicit Types s : config W.

Ltac step_cases s :=
  unfold step, goto;
  let Hpc := fresh "Hpc" in
  destruct (pc s) as [[]|?|?] eqn:Hpc; simpl;
  repeat case_match; simpl.

(** How a step reaches a [return]: it was there already, or this is one of
    the two tests of [env.timeLimitReached()], or the test of
    [_passive->isEmpty()]. *)
Lemma step_into_Return s r :
  pc (step s) = Return r ->
  pc s = Return r \/
  (r = TIME_LIMIT /\ timeLimitReached (world (step s)) = true) \/
  (pc s = At L126 /\ passive_isEmpty (world s) = true /\
   world (step s) = world s /\ complete (step s) = complete s /\
   r = if complete s then SATISFIABLE else REFUTATION_NOT_FOUND).
Proof.
  step_cases s; intros Hs; try discriminate;
    try (left; congruence);
    try (right; left; split; [congruence | assumption]).
  all: right; right; repeat split; auto; congruence.
Qed.

Lemma run_L126_flushed k (w0 : W) (n0 : Z) :
  pc (run k (doSaturation_entry w0 n0)) = At L126 ->
  clausesFlushed (world (run k (doSaturation_entry w0 n0))) = true.
Proof.
  destruct k as [|k]; [discriminate |].
  rewrite run_S. intros Hpc.
  destruct (step_into_L126 _ Hpc) as (_ & Hflush & Hw & _).
  rewrite Hw. exact Hflush.
Qed.

(** The state [doSaturation] returns in.  It returns [TIME_LIMIT] only with
    [env.timeLimitReached()] true; it returns [SATISFIABLE] or
    [REFUTATION_NOT_FOUND] only with [_passive] empty and the clauses flushed,
    the former with [complete] true and the latter with [complete] false; it
    returns no other termination reason. *)
Theorem doSaturation_final_state (w0 : W) (n0 : Z) (k : nat)
    (r : SaturationResult) :
  let s := run k (doSaturation_entry w0 n0) in
  pc s = Return r ->
  match r with
  | TIME_LIMIT => timeLimitReached (world s) = true
  | SATISFIABLE =>
      complete s = true /\ passive_isEmpty (world s) = true /\
      clausesFlushed (world s) = true
  | REFUTATION_NOT_FOUND =>
      complete s = false /\ passive_isEmpty (world s) = true /\
      clausesFlushed (world s) = true
  | REFUTATION | MEMORY_LIMIT | UNKNOWN => False
  end.
Proof.
  cbv zeta. set (e := doSaturation_entry w0 n0).
  induction k as [|k IH]; [discriminate |].
  rewrite run_S. intros Hr.
  destruct (step_into_Return _ _ Hr)
    as [Hp | [[-> Ht] | (Hp & Hempty & Hw & Hc & ->)]].
  - rewrite step_final by (rewrite Hp; discriminate). exact (IH Hp).
  - exact Ht.
  - pose proof (run_L126_flushed k w0 n0 Hp) as Hflush. fold e in Hflush.
    rewrite Hw, Hc.
    destruct (complete (run k e)); repeat split; assumption.
Qed.

Lemma step_cnt_bounded s : 0 <= cnt s < 500 -> 0 <= cnt (step s) < 500.
Proof.
  intros Hc.
  step_cases s; try assumption;
    match goal with
    | H : shouldUpdateLimits ?a ?b (cnt s) = _ |- _ =>
        pose proof (shouldUpdateLimits_bound a b (cnt s) Hc) as Hb;
        rewrite H in Hb; exact Hb
    end.
Qed.

(** The static counter of [shouldUpdateLimits] stays below 500 throughout a
    run of [doSaturation] that starts with it below 500: [cnt++] never wraps
    around. *)
Theorem doSaturation_counter_bounded (w0 : W) (n0 : Z) (k : nat) :
  0 <= n0 < 500 -> 0 <= cnt (run k (doSaturation_entry w0 n0)) < 500.
Proof.
  intros Hn. induction k as [|k IH]; [exact Hn |].
  rewrite run_S. apply step_cnt_bounded, IH.
Qed.

(** The limits of the passive container are updated only right after a
    clause was processed without the time limit being reached, with an
    estimate that is not negative, and the counter is zero afterwards. *)
Theorem doSaturation_updateLimits_guard s :
  pc (step s) = At L113 ->
  pc s = At L87 /\ unprocessed_isEmpty (world s) = false /\
  exists u w1 estimatedReachable v,
    processUnprocessed (world s) = Ok u w1 /\
    timeLimitReached w1 = false /\
    estimatedReachableCount (environment w1) = Some estimatedReachable /\
    0 <= estimatedReachable /\
    passive_updateLimits estimatedReachable w1 = Ok v (world (step s)) /\
    cnt (step s) = 0 /\ complete (step s) = complete s.
Proof.
  unfold step, goto.
  destruct (pc s) as [[]|?|?] eqn:Hpc; simpl;
    repeat case_match; simpl; intros Hs; try discriminate;
    try congruence.
  split; [reflexivity |]. split; [reflexivity |].
  match goal with
  | H : shouldUpdateLimits _ _ _ = _ |- _ =>
      unfold shouldUpdateLimits in H;
      destruct (_ || _) in H; inversion H; subst
  end.
  eexists _, _, _, _. repeat split; eauto.
  apply Z.leb_le. assumption.
Qed.

(** The local [complete] is only ever lowered, and only at a limit update:
    with [env.options->complete()] false, [doSaturation] never returns
    [SATISFIABLE]. *)
Theorem doSaturation_incomplete_options (w0 : W) (n0 : Z) (k : nat) :
  options_complete w0 = false ->
  complete (run k (doSaturation_entry w0 n0)) = false /\
  pc (run k (doSaturation_entry w0 n0)) <> Return SATISFIABLE.
Proof.
  intros Ho. split.
  - apply run_complete_false. exact Ho.
  - apply run_incomplete_not_SATISFIABLE; [exact Ho | discriminate].
Qed.

Lemma step_without_time_limit s :
  (forall w : W, no_time_limit (environment w)) ->
  pc s <> At L113 ->
  pc (step s) <> At L113 /\ complete (step s) = complete s.
Proof.
  intros Hno Hp.
  step_cases s; try (split; [discriminate | reflexivity]);
    try (split; [assumption | reflexivity]);
    try congruence;
    try (split; [congruence | reflexivity]).
  match goal with
  | H : estimatedReachableCount (environment ?w) = Some ?z |- _ =>
      rewrite (estimatedReachableCount_no_time_limit _ (Hno w)) in H;
      inversion H; subst; discriminate
  end.
Qed.

(** Without a time limit the estimate is always -1: the limits are never
    updated and [complete] keeps the value of [env.options->complete()]. *)
Theorem doSaturation_without_time_limit (w0 : W) (n0 : Z) (k : nat) :
  (forall w : W, no_time_limit (environment w)) ->
  pc (run k (doSaturation_entry w0 n0)) <> At L113 /\
  complete (run k (doSaturation_entry w0 n0)) = options_complete w0.
Proof.
  intros Hno. induction k as [|k [IHp IHc]].
  - split; [discriminate | reflexivity].
  - rewrite run_S.
    destruct (step_without_time_limit _ Hno IHp) as [Hp Hc].
    split; [exact Hp | congruence].
Qed.
End LoopInvariants.

(** Variants of the small prover state: [env.options->complete()] is
    [complete]; the environment is [fixed] when given; the time limit is
    reached when [deadline] milliseconds have elapsed. *)
Module Variant.
Definition algorithm (complete : bool) (fixed : option Environment)
    (deadline : option Z) : SaturationAlgorithm Toy.state nat := {|
  newClausesToUnprocessed := ret tt;
  unprocessed_isEmpty w :=
    match Toy.t_unprocessed w with [] => true | _ => false end;
  unprocessed_pop := Toy.pop_unprocessed;
  isRefutation _ := false;
  forwardSimplify _ := ret true;
  backwardSimplify _ := ret tt;
  addToPassive := Toy.add_passive;
  store := Toy.store_of;
  setStore _ _ := ret tt;
  simplCont_add _ := ret tt;
  timeLimitReached w :=
    match deadline with
    | Some d => d <=? elapsedMilliseconds (Toy.t_env w)
    | None => false
    end;
  weightLimited := Toy.t_limited;
  ageLimited _ := false;
  environment w := match fixed with Some env => env | None => Toy.t_env w end;
  passive_updateLimits := Toy.update_limits;
  onAllProcessed := ret tt;
  clausesFlushed _ := true;
  passive_isEmpty w :=
    match Toy.t_passive w with [] => true | _ => false end;
  passive_popSelected := Toy.pop_passive;
  activate _ := ret true;
  handleUnsuccessfulActivation _ := ret tt;
  options_complete _ := complete
|}.

(** No time limit at all, 90 s into the run. *)
Definition unlimited : Environment := {|
  activeClauses := 4000; elapsedMilliseconds := 90000;
  lrsFirstTimeCheck := 5; timeLimitInDeciseconds := 0;
  simulatedTimeLimit := 0; startTime := 0 |}.
End Variant.

Lemma doSaturation_final_state_witness :
  passive_isEmpty
    (world (run 5 (doSaturation_entry Toy.empty_problem 0))) = true /\
  @timeLimitReached _ _ (Variant.algorithm true None (Some 1000))
    (world (@run _ _ (Variant.algorithm true None (Some 1000)) 3
              (@doSaturation_entry _ _ (Variant.algorithm true None (Some 1000))
                 Toy.one_clause 0))) = true.
Proof.
  split.
  - pose proof (doSaturation_final_state Toy.empty_problem 0 5 SATISFIABLE
                  eq_refl) as (_ & Hp & _).
    exact Hp.
  - exact (@doSaturation_final_state _ _
             (Variant.algorithm true None (Some 1000))
             Toy.one_clause 0 3 TIME_LIMIT eq_refl).
Defined.

Lemma doSaturation_counter_bounded_witness :
  0 <= cnt (run 2 (doSaturation_entry Toy.one_clause 499)) < 500.
Proof. apply doSaturation_counter_bounded. lia. Defined.

Lemma doSaturation_updateLimits_guard_witness :
  cnt (run 2 (doSaturation_entry Toy.one_clause 499)) = 0.
Proof.
  assert (Hpc : pc (step (run 1 (doSaturation_entry Toy.one_clause 499)))
                = At L113) by reflexivity.
  destruct (doSaturation_updateLimits_guard
              (run 1 (doSaturation_entry Toy.one_clause 499)) Hpc)
    as (_ & _ & u & w1 & n & v & _ & _ & _ & _ & _ & Hc & _).
  exact Hc.
Defined.

Lemma doSaturation_incomplete_options_witness :
  @pc Toy.state
    (@run _ _ (Variant.algorithm false None None) 5
       (@doSaturation_entry _ _ (Variant.algorithm false None None)
          Toy.empty_problem 0)) <> Return SATISFIABLE.
Proof.
  apply (@doSaturation_incomplete_options _ _
           (Variant.algorithm false None None) Toy.empty_problem 0 5).
  reflexivity.
Defined.

Lemma doSaturation_without_time_limit_witness :
  @complete Toy.state
    (@run _ _ (Variant.algorithm true (Some Variant.unlimited) None) 4
       (@doSaturation_entry _ _
          (Variant.algorithm true (Some Variant.unlimited) None)
          Toy.one_clause 499)) = true.
Proof.
  apply (@doSaturation_without_time_limit _ _
           (Variant.algorithm true (Some Variant.unlimited) None)
           Toy.one_clause 499 4).
  intros w. repeat split; simpl; lia.
Defined.

End LRS.

(** ** Kernel/Rebalancing/Inverters.cpp *)

Module Inverters.
Import MachineInt.
Local Open Scope Z_scope.

(** *** Terms, the signature and the theory

    Terms are variables or applications of a functor (an [unsigned] number)
    to arguments.  [Kernel/Term.hpp], [Kernel/Signature.hpp],
    [Kernel/Theory.hpp] and [Kernel/NumTraits.hpp] lie outside the files
    embedded here: what [Inverters.cpp] asks of [env.signature] and
    [theory] is the interface [Signature] below. *)

Definition functor := Z.

#[local] Unset Elimination Schemes.
Inductive TermList :=
| Var (v : Z)
| App (f : functor) (args : list TermList).
#[local] Set Elimination Schemes.

Record Term := { Term_functor : functor; Term_args : list TermList }.

Definition TermList_of (t : Term) : TermList :=
  App (Term_functor t) (Term_args t).

(** [IntegerConstantType], [RationalConstantType], [RealConstantType]. *)
Inductive NumSort := IntS | RatS | RealS.

(** Numerals: integers, and rationals kept in lowest terms for both
    [RationalConstantType] and [RealConstantType]. *)
Inductive Constant :=
| IntC (z : Z)
| RatC (q : Qc)
| RealC (q : Qc).

(** [Theory::Interpretation]: the arithmetic operations per sort (the
    members [addI], [minusI], [mulI], [divI] of [NumTraits<sort>]), the two
    array operations, and [OTHER] for every interpretation [Inverters.cpp]
    does not name. *)
Inductive Interpretation :=
| PLUS (s : NumSort)
| UNARY_MINUS (s : NumSort)
| MULTIPLY (s : NumSort)
| QUOTIENT (s : NumSort)
| ARRAY_SELECT
| ARRAY_STORE
| OTHER (n : Z).

Definition Sort := Z.

Record OperatorType := { arg : list Sort; result : Sort }.

(** [OperatorType::arg(i)]. *)
Definition OperatorType_arg (ty : OperatorType) (i : nat) : Sort :=
  nth i (arg ty) 0.

(** [OperatorType::getFunctionType({a, b}, r)]. *)
Definition getFunctionType (args : list Sort) (r : Sort) : OperatorType :=
  {| arg := args; result := r |}.

Class Signature := {
  (** [theory->isInterpretedFunction(fun)] *)
  isInterpretedFunction : functor -> bool;
  (** [theory->interpretFunction(fun)] *)
  interpretFunction : functor -> Interpretation;
  (** [theory->tryInterpretConstant(t, c)], for the three types of [c] at
      once: the overload for a type succeeds on the numerals of that type *)
  interpretConstant : TermList -> option Constant;
  (** [env.signature->getFunction(fun)->termAlgebraCons()] *)
  termAlgebraCons : functor -> bool;
  (** [env.signature->getTermAlgebraConstructor(fun)->destructorFunctor(i)] *)
  destructorFunctor : functor -> Z -> functor;
  (** [env.signature->getFunction(fun)->fnType()] *)
  fnType : functor -> OperatorType;
  (** [env.signature->getInterpretingSymbol(i)], behind the term builders
      of [NumTraits] *)
  getInterpretingSymbol : Interpretation -> functor;
  (** [env.signature->getInterpretingSymbol(i, type)] *)
  getInterpretingSymbolOfType : Interpretation -> OperatorType -> functor;
  (** [NumTraits<sort>::one()] *)
  one : NumSort -> TermList
}.

Record InversionContext := {
  topTerm : Term;
  topIdx : Z;          (* unsigned *)
  toWrap : TermList
}.

(** [t[i]] and [*t.nthArgument(i)].  The argument exists for an [i] below
    the arity, which [InversionContext] guarantees for [topIdx] and the
    arity of the symbols for the literal indices; elsewhere the model
    answers with the variable [Var 0]. *)
Fixpoint nth_arg (l : list TermList) (i : Z) : option TermList :=
  match l with
  | [] => None
  | a :: l' => if i =? 0 then Some a else nth_arg l' (i - 1)
  end.

Definition nthArgument (t : Term) (i : Z) : TermList :=
  match nth_arg (Term_args t) i with
  | Some a => a
  | None => Var 0
  end.

(** [1 - ctxt.topIdx()], computed on [unsigned]. *)
Definition otherIdx (ctxt : InversionContext) : Z := unsigned (1 - topIdx ctxt).

Inductive outcome (A : Type) :=
| Returned (a : A)
| AssertionViolation.
Arguments Returned {A} a.
Arguments AssertionViolation {A}.

Section Code.
Context {sig : Signature}.

(** The three overloads of [theory->tryInterpretConstant]. *)
Definition tryInterpretConstant_Int (t : TermList) : option Z :=
  match interpretConstant t with Some (IntC z) => Some z | _ => None end.

Definition tryInterpretConstant_Frac (s : NumSort) (t : TermList) : option Qc :=
  match s, interpretConstant t with
  | RatS, Some (RatC q) => Some q
  | RealS, Some (RealC q) => Some q
  | _, _ => None
  end.

(** The term builders [number::add], [number::minus], [number::mul] and
    [number::div] of [NumTraits<sort>]. *)
Definition add (s : NumSort) (a b : TermList) : TermList :=
  App (getInterpretingSymbol (PLUS s)) [a; b].
Definition minus (s : NumSort) (a : TermList) : TermList :=
  App (getInterpretingSymbol (UNARY_MINUS s)) [a].
Definition mul (s : NumSort) (a b : TermList) : TermList :=
  App (getInterpretingSymbol (MULTIPLY s)) [a; b].
Definition div (s : NumSort) (a b : TermList) : TermList :=
  App (getInterpretingSymbol (QUOTIENT s)) [a; b].

(** [nonZero<number>(t)]: [tryInterpretConstant(t, c) && number::zeroC != c]. *)
Definition nonZero (s : NumSort) (t : TermList) : bool :=
  match tryInterpretConstant_Frac s t with
  | Some c => negb (Qc_eq_bool (Q2Qc 0) c)
  | None => false
  end.

(** [tryInvertMulInt(ctxt, out)]: [Some out] when it returns true, having
    assigned [out]; [None] when it returns false. *)
Definition tryInvertMulInt (ctxt : InversionContext) : option TermList :=
  let a_ := nthArgument (topTerm ctxt) (otherIdx ctxt) in
  match tryInterpretConstant_Int a_ with
  | Some a =>
      if a =? 1 then Some (toWrap ctxt)
      else if a =? -1 then Some (mul IntS a_ (toWrap ctxt))
      else None
  | None => None
  end.

(** [ALWAYS(tryInvertMulInt(ctxt, out)) return out;] *)
Definition doInvertMulInt (ctxt : InversionContext) : outcome TermList :=
  match tryInvertMulInt ctxt with
  | Some out => Returned out
  | None => AssertionViolation
  end.

Definition canInvertMulInt (ctxt : InversionContext) : bool :=
  match tryInvertMulInt ctxt with
  | Some _ => true
  | None => false
  end.

Definition canInvertTop (ctxt : InversionContext) : bool :=
  let t := topTerm ctxt in
  let fun_ := Term_functor t in
  if isInterpretedFunction fun_ then
    match interpretFunction fun_ with
    | PLUS RealS | PLUS RatS => true
    | UNARY_MINUS RealS | UNARY_MINUS RatS => true
    | MULTIPLY RealS => nonZero RealS (nthArgument t (otherIdx ctxt))
    | MULTIPLY RatS => nonZero RatS (nthArgument t (otherIdx ctxt))
    | MULTIPLY IntS => canInvertMulInt ctxt
    | PLUS IntS => true
    | UNARY_MINUS IntS => true
    | ARRAY_STORE => topIdx ctxt =? 2
    | _ => false
    end
  else if termAlgebraCons fun_ then true
  else false.

Definition invertTop (ctxt : InversionContext) : outcome TermList :=
  if negb (canInvertTop ctxt) then AssertionViolation  (* ASS(canInvertTop(ctxt)) *)
  else
    let t := topTerm ctxt in
    let index := topIdx ctxt in
    let toWrap := toWrap ctxt in
    let fun_ := Term_functor t in
    if isInterpretedFunction fun_ then
      match interpretFunction fun_ with
      | PLUS s =>
          Returned (add s toWrap (minus s (nthArgument t (otherIdx ctxt))))
      | UNARY_MINUS s => Returned (minus s toWrap)
      | MULTIPLY RealS =>
          Returned (mul RealS toWrap
                      (div RealS (one RealS) (nthArgument t (otherIdx ctxt))))
      | MULTIPLY RatS =>
          Returned (mul RatS toWrap
                      (div RatS (one RatS) (nthArgument t (otherIdx ctxt))))
      | MULTIPLY IntS => doInvertMulInt ctxt
      | ARRAY_STORE =>
          if negb (topIdx ctxt =? 2) then AssertionViolation
          else
            let store := fnType (Term_functor t) in
            let select :=
              getInterpretingSymbolOfType ARRAY_SELECT
                (getFunctionType
                   [OperatorType_arg store 0; OperatorType_arg store 1]
                   (OperatorType_arg store 2)) in
            Returned (App select [toWrap; nthArgument t 1])
      | _ => AssertionViolation                          (* ASSERTION_VIOLATION *)
      end
    else
      if negb (termAlgebraCons fun_) then AssertionViolation  (* ASS_REP *)
      else Returned (App (destructorFunctor fun_ index) [toWrap]).

(** The table of the specification: the heads and positions at which an
    argument can be isolated. *)
Inductive invertible (ctxt : InversionContext) : Prop :=
| inv_add s :
    isInterpretedFunction (Term_functor (topTerm ctxt)) = true ->
    interpretFunction (Term_functor (topTerm ctxt)) = PLUS s ->
    invertible ctxt
| inv_minus s :
    isInterpretedFunction (Term_functor (topTerm ctxt)) = true ->
    interpretFunction (Term_functor (topTerm ctxt)) = UNARY_MINUS s ->
    invertible ctxt
| inv_mul_frac s c :
    isInterpretedFunction (Term_functor (topTerm ctxt)) = true ->
    interpretFunction (Term_functor (topTerm ctxt)) = MULTIPLY s ->
    s <> IntS ->
    tryInterpretConstant_Frac s (nthArgument (topTerm ctxt) (otherIdx ctxt))
      = Some c ->
    c <> Q2Qc 0 ->
    invertible ctxt
| inv_mul_int z :
    isInterpretedFunction (Term_functor (topTerm ctxt)) = true ->
    interpretFunction (Term_functor (topTerm ctxt)) = MULTIPLY IntS ->
    tryInterpretConstant_Int (nthArgument (topTerm ctxt) (otherIdx ctxt))
      = Some z ->
    z = 1 \/ z = -1 ->
    invertible ctxt
| inv_store :
    isInterpretedFunction (Term_functor (topTerm ctxt)) = true ->
    interpretFunction (Term_functor (topTerm ctxt)) = ARRAY_STORE ->
    topIdx ctxt = 2 ->
    invertible ctxt
| inv_constructor :
    isInterpretedFunction (Term_functor (topTerm ctxt)) = false ->
    termAlgebraCons (Term_functor (topTerm ctxt)) = true ->
    invertible ctxt.

End Code.

(** *** The intended theory

    Values of the standard model: integers, rationals, reals, data built
    from term-algebra constructors, and arrays of such values.  A
    [Structure] interprets every functor; it is a [theory_model] of the
    signature when it gives the interpreted symbols, the numerals, the
    constructors and the destructors their standard meaning. *)

#[local] Unset Elimination Schemes.
Inductive bval :=
| BInt (z : Z)
| BRat (q : Qc)
| BReal (r : R)
| BData (c : functor) (fields : list bval).
#[local] Set Elimination Schemes.

Inductive value :=
| Base (b : bval)
| Arr (a : bval -> bval).

Definition value_of_constant (c : Constant) : value :=
  match c with
  | IntC z => Base (BInt z)
  | RatC q => Base (BRat q)
  | RealC q => Base (BReal (Q2R q))
  end.

Definition has_sort (s : NumSort) (v : value) : Prop :=
  match s, v with
  | IntS, Base (BInt _) | RatS, Base (BRat _) | RealS, Base (BReal _) => True
  | _, _ => False
  end.

Definition plus_value (s : NumSort) (a b : value) : option value :=
  match s, a, b with
  | IntS, Base (BInt x), Base (BInt y) => Some (Base (BInt (x + y)))
  | RatS, Base (BRat x), Base (BRat y) => Some (Base (BRat (x + y)%Qc))
  | RealS, Base (BReal x), Base (BReal y) => Some (Base (BReal (x + y)%R))
  | _, _, _ => None
  end.

Definition uminus_value (s : NumSort) (a : value) : option value :=
  match s, a with
  | IntS, Base (BInt x) => Some (Base (BInt (- x)))
  | RatS, Base (BRat x) => Some (Base (BRat (- x)%Qc))
  | RealS, Base (BReal x) => Some (Base (BReal (- x)%R))
  | _, _ => None
  end.

Definition times_value (s : NumSort) (a b : value) : option value :=
  match s, a, b with
  | IntS, Base (BInt x), Base (BInt y) => Some (Base (BInt (x * y)))
  | RatS, Base (BRat x), Base (BRat y) => Some (Base (BRat (x * y)%Qc))
  | RealS, Base (BReal x), Base (BReal y) => Some (Base (BReal (x * y)%R))
  | _, _, _ => None
  end.

(** The quotient of rationals and reals, left unspecified at a zero
    divisor; the integer quotients are not needed here. *)
Definition quotient_value (s : NumSort) (a b : value) : option value :=
  match s, a, b with
  | RatS, Base (BRat x), Base (BRat y) =>
      if Qcanon.Qc_eq_dec y (Q2Qc 0) then None
      else Some (Base (BRat (x / y)%Qc))
  | RealS, Base (BReal x), Base (BReal y) =>
      if Req_EM_T y 0%R then None else Some (Base (BReal (x / y)%R))
  | _, _, _ => None
  end.

Definition select_value (a i : value) : option value :=
  match a, i with
  | Arr f, Base j => Some (Base (f j))
  | _, _ => None
  end.

Definition update (f : bval -> bval) (j y : bval) : bval -> bval :=
  fun k => if excluded_middle_informative (k = j) then y else f k.

Definition store_value (a i x : value) : option value :=
  match a, i, x with
  | Arr f, Base j, Base y => Some (Arr (update f j y))
  | _, _, _ => None
  end.

(** The meaning of an interpretation, where the theory fixes one. *)
Definition standard (i : Interpretation)
  : option (list value -> option value) :=
  match i with
  | PLUS s =>
      Some (fun vs => match vs with [a; b] => plus_value s a b | _ => None end)
  | UNARY_MINUS s =>
      Some (fun vs => match vs with [a] => uminus_value s a | _ => None end)
  | MULTIPLY s =>
      Some (fun vs => match vs with [a; b] => times_value s a b | _ => None end)
  | QUOTIENT IntS => None
  | QUOTIENT s =>
      Some (fun vs =>
              match vs with [a; b] => quotient_value s a b | _ => None end)
  | ARRAY_SELECT =>
      Some (fun vs => match vs with [a; i] => select_value a i | _ => None end)
  | ARRAY_STORE =>
      Some (fun vs =>
              match vs with [a; i; x] => store_value a i x | _ => None end)
  | OTHER _ => None
  end.

Fixpoint bases (vs : list value) : option (list bval) :=
  match vs with
  | [] => Some []
  | Base b :: vs' =>
      match bases vs' with Some bs => Some (b :: bs) | None => None end
  | Arr _ :: _ => None
  end.

(** A constructor builds a datum from its fields. *)
Definition construct (c : functor) (vs : list value) : option value :=
  match bases vs with
  | Some bs => Some (Base (BData c bs))
  | None => None
  end.

Fixpoint nth_field (l : list bval) (i : Z) : option bval :=
  match l with
  | [] => None
  | a :: l' => if i =? 0 then Some a else nth_field l' (i - 1)
  end.

(** The destructor of position [i] of [c] projects a datum built by [c];
    on other values it is unspecified. *)
Definition project (c : functor) (i : Z) (vs : list value) : option value :=
  match vs with
  | [Base (BData c' bs)] =>
      if c' =? c
      then match nth_field bs i with Some b => Some (Base b) | None => None end
      else None
  | _ => None
  end.

Class Structure := { interp : functor -> list value -> option value }.

Section Semantics.
Context {sig : Signature} {M : Structure}.
Variable rho : Z -> value.

Fixpoint eval (t : TermList) : option value :=
  match t with
  | Var v => Some (rho v)
  | App f args =>
      match
        (fix evals (l : list TermList) : option (list value) :=
           match l with
           | [] => Some []
           | a :: l' =>
               match eval a, evals l' with
               | Some v, Some vs => Some (v :: vs)
               | _, _ => None
               end
           end) args
      with
      | Some vs => interp f vs
      | None => None
      end
  end.

Fixpoint evals (l : list TermList) : option (list value) :=
  match l with
  | [] => Some []
  | a :: l' =>
      match eval a, evals l' with
      | Some v, Some vs => Some (v :: vs)
      | _, _ => None
      end
  end.
End Semantics.

Definition one_constant (s : NumSort) : Constant :=
  match s with
  | IntS => IntC 1
  | RatS => RatC (Q2Qc 1)
  | RealS => RealC (Q2Qc 1)
  end.

(** The number of arguments of a functor: [Theory::getArity] for an
    interpreted function, the length of its type otherwise. *)
Definition arity_of (i : Interpretation) : nat :=
  match i with
  | PLUS _ | MULTIPLY _ | QUOTIENT _ | ARRAY_SELECT => 2
  | UNARY_MINUS _ => 1
  | ARRAY_STORE => 3
  | OTHER _ => 0
  end.

Definition arity {sig : Signature} (f : functor) : nat :=
  if isInterpretedFunction f then arity_of (interpretFunction f)
  else length (arg (fnType f)).

(** The invariant of [InversionContext] and of terms: [topIdx] is a
    position of [topTerm], which has as many arguments as its functor
    takes. *)
Definition well_formed {sig : Signature} (ctxt : InversionContext) : Prop :=
  length (Term_args (topTerm ctxt)) = arity (Term_functor (topTerm ctxt)) /\
  0 <= topIdx ctxt < Z.of_nat (length (Term_args (topTerm ctxt))).

Record theory_model (sig : Signature) (M : Structure) : Prop := {
  tm_interpreted : forall f op,
    isInterpretedFunction f = true ->
    standard (interpretFunction f) = Some op ->
    forall vs, interp f vs = op vs;
  tm_constant : forall t c,
    interpretConstant t = Some c ->
    exists f, t = App f [] /\ interp f [] = Some (value_of_constant c);
  tm_constructor : forall c,
    isInterpretedFunction c = false -> termAlgebraCons c = true ->
    forall vs, interp c vs = construct c vs;
  tm_destructor : forall c i,
    isInterpretedFunction c = false -> termAlgebraCons c = true ->
    0 <= i < Z.of_nat (length (arg (fnType c))) ->
    forall vs, interp (destructorFunctor c i) vs = project c i vs;
  tm_symbol : forall i op,
    standard i = Some op ->
    isInterpretedFunction (getInterpretingSymbol i) = true /\
    interpretFunction (getInterpretingSymbol i) = i;
  tm_select : forall ty,
    isInterpretedFunction (getInterpretingSymbolOfType ARRAY_SELECT ty) = true /\
    interpretFunction (getInterpretingSymbolOfType ARRAY_SELECT ty)
      = ARRAY_SELECT;
  tm_one : forall s, interpretConstant (one s) = Some (one_constant s)
}.

(** [t] with its argument at position [i] replaced by [r]. *)
Fixpoint replace_arg (l : list TermList) (i : Z) (r : TermList)
  : list TermList :=
  match l with
  | [] => []
  | a :: l' => if i =? 0 then r :: l' else a :: replace_arg l' (i - 1) r
  end.

Definition substitute (ctxt : InversionContext) (r : TermList) : TermList :=
  App (Term_functor (topTerm ctxt))
      (replace_arg (Term_args (topTerm ctxt)) (topIdx ctxt) r).

(** The heads whose inversion is an equivalence. *)
Definition arithmetic_head {sig : Signature} (ctxt : InversionContext)
  (s : NumSort) : Prop :=
  isInterpretedFunction (Term_functor (topTerm ctxt)) = true /\
  (interpretFunction (Term_functor (topTerm ctxt)) = PLUS s \/
   interpretFunction (Term_functor (topTerm ctxt)) = UNARY_MINUS s \/
   interpretFunction (Term_functor (topTerm ctxt)) = MULTIPLY s).

(** *** A signature to run the inverters on

    Arithmetic on the three sorts (functors 1-4, 11-14, 21-24), arrays
    (30 [store], 31 [select]), lists (40 [cons] with destructors 41 [head]
    and 42 [tail], 43 [nil]), an uninterpreted [f] (90) and a few numerals
    (50-53 integers, 60-62 rationals, 70-72 reals). *)
Module Example.

Definition sort_code (s : NumSort) : Z :=
  match s with IntS => 0 | RatS => 10 | RealS => 20 end.

Definition symbol_of (i : Interpretation) : functor :=
  match i with
  | PLUS s => sort_code s + 1
  | UNARY_MINUS s => sort_code s + 2
  | MULTIPLY s => sort_code s + 3
  | QUOTIENT s => sort_code s + 4
  | ARRAY_STORE => 30
  | ARRAY_SELECT => 31
  | OTHER _ => 39
  end.

Inductive kind :=
| Interpreted (i : Interpretation)
| Numeral (c : Constant)
| Free.

Definition kind_of (f : functor) : kind :=
  match f with
  | 1 => Interpreted (PLUS IntS) | 2 => Interpreted (UNARY_MINUS IntS)
  | 3 => Interpreted (MULTIPLY IntS) | 4 => Interpreted (QUOTIENT IntS)
  | 11 => Interpreted (PLUS RatS) | 12 => Interpreted (UNARY_MINUS RatS)
  | 13 => Interpreted (MULTIPLY RatS) | 14 => Interpreted (QUOTIENT RatS)
  | 21 => Interpreted (PLUS RealS) | 22 => Interpreted (UNARY_MINUS RealS)
  | 23 => Interpreted (MULTIPLY RealS) | 24 => Interpreted (QUOTIENT RealS)
  | 30 => Interpreted ARRAY_STORE | 31 => Interpreted ARRAY_SELECT
  | 39 => Interpreted (OTHER 0)
  | 50 => Numeral (IntC 1) | 51 => Numeral (IntC (-1))
  | 52 => Numeral (IntC 0) | 53 => Numeral (IntC 2)
  | 60 => Numeral (RatC (Q2Qc 1)) | 61 => Numeral (RatC (Q2Qc 0))
  | 62 => Numeral (RatC (Q2Qc 2))
  | 70 => Numeral (RealC (Q2Qc 1)) | 71 => Numeral (RealC (Q2Qc 0))
  | 72 => Numeral (RealC (Q2Qc 2))
  | _ => Free
  end.

#[global] Instance signature : Signature := {|
  isInterpretedFunction f :=
    match kind_of f with Interpreted _ => true | _ => false end;
  interpretFunction f :=
    match kind_of f with Interpreted i => i | _ => OTHER 0 end;
  interpretConstant t :=
    match t with
    | App f [] => match kind_of f with Numeral c => Some c | _ => None end
    | _ => None
    end;
  termAlgebraCons f := (f =? 40) || (f =? 43);
  destructorFunctor c i := if c =? 40 then 41 + i else 49;
  fnType f :=
    if f =? 30 then {| arg := [100; 1; 1]; result := 100 |}
    else if f =? 40 then {| arg := [1; 101]; result := 101 |}
    else {| arg := []; result := 0 |};
  getInterpretingSymbol := symbol_of;
  getInterpretingSymbolOfType i _ := symbol_of i;
  one s := App (50 + sort_code s) []
|}.

#[global] Instance structure : Structure := {|
  interp f vs :=
    match kind_of f with
    | Interpreted i =>
        match standard i with Some op => op vs | None => None end
    | Numeral c =>
        match vs with [] => Some (value_of_constant c) | _ => None end
    | Free =>
        if (f =? 40) || (f =? 43) then construct f vs
        else if f =? 41 then project 40 0 vs
        else if f =? 42 then project 40 1 vs
        else None
    end
|}.

Definition num (f : functor) : TermList := App f [].

(** [X0] is the array of zeros, [X3] the array of ones, [X1] is 0 and
    [X2] is 5. *)
Definition arrays (v : Z) : value :=
  match v with
  | 0 => Arr (fun _ => BInt 0)
  | 3 => Arr (fun _ => BInt 1)
  | 2 => Base (BInt 5)
  | _ => Base (BInt 0)
  end.

(** [X0] is 5, [X1] the empty list and [X2] the list [7]. *)
Definition lists (v : Z) : value :=
  match v with
  | 0 => Base (BInt 5)
  | 2 => Base (BData 40 [BInt 7; BData 43 []])
  | _ => Base (BData 43 [])
  end.

(** [X0] is 3, [X1] is 5. *)
Definition numbers (v : Z) : value :=
  match v with
  | 0 => Base (BInt 3)
  | _ => Base (BInt 5)
  end.

(** [X0 + 2 = X1] on the integers, to be solved for [X0]. *)
Definition sum_ctxt : InversionContext :=
  {| topTerm := {| Term_functor := 1; Term_args := [Var 0; num 53] |};
     topIdx := 0; toWrap := Var 1 |}.

(** [(-1) * X0 = X1] on the integers, to be solved for [X0]. *)
Definition negated_ctxt : InversionContext :=
  {| topTerm := {| Term_functor := 3; Term_args := [num 51; Var 0] |};
     topIdx := 1; toWrap := Var 1 |}.

(** [2 * X0 = X1] on the integers: not invertible. *)
Definition doubled_ctxt : InversionContext :=
  {| topTerm := {| Term_functor := 3; Term_args := [num 53; Var 0] |};
     topIdx := 1; toWrap := Var 1 |}.

(** [X0 * 2 = X1] on the rationals, to be solved for [X0]. *)
Definition halved_ctxt : InversionContext :=
  {| topTerm := {| Term_functor := 13; Term_args := [Var 0; num 62] |};
     topIdx := 0; toWrap := Var 1 |}.

(** [store(X0, X1, X2) = X3], to be solved for [X2]. *)
Definition store_ctxt : InversionContext :=
  {| topTerm := {| Term_functor := 30; Term_args := [Var 0; Var 1; Var 2] |};
     topIdx := 2; toWrap := Var 3 |}.

(** [cons(X0, X1) = X2], to be solved for [X1]. *)
Definition cons_ctxt : InversionContext :=
  {| topTerm := {| Term_functor := 40; Term_args := [Var 0; Var 1] |};
     topIdx := 1; toWrap := Var 2 |}.

End Example.

(** *** Inversion against the theory *)

Definition context_of (f : functor) (args : list TermList) (idx : Z)
  (w : TermList) : InversionContext :=
  {| topTerm := {| Term_functor := f; Term_args := args |};
     topIdx := idx; toWrap := w |}.

(** What [invertTop] returns, row by row of the specification. *)
Inductive inverse_form {sig : Signature} (ctxt : InversionContext)
  : TermList -> Prop :=
| form_add s :
    interpretFunction (Term_functor (topTerm ctxt)) = PLUS s ->
    inverse_form ctxt
      (add s (toWrap ctxt)
         (minus s (nthArgument (topTerm ctxt) (otherIdx ctxt))))
| form_minus s :
    interpretFunction (Term_functor (topTerm ctxt)) = UNARY_MINUS s ->
    inverse_form ctxt (minus s (toWrap ctxt))
| form_mul_frac s :
    interpretFunction (Term_functor (topTerm ctxt)) = MULTIPLY s ->
    s <> IntS ->
    inverse_form ctxt
      (mul s (toWrap ctxt)
         (div s (one s) (nthArgument (topTerm ctxt) (otherIdx ctxt))))
| form_mul_one :
    interpretFunction (Term_functor (topTerm ctxt)) = MULTIPLY IntS ->
    tryInterpretConstant_Int (nthArgument (topTerm ctxt) (otherIdx ctxt))
      = Some 1 ->
    inverse_form ctxt (toWrap ctxt)
| form_mul_minus_one :
    interpretFunction (Term_functor (topTerm ctxt)) = MULTIPLY IntS ->
    tryInterpretConstant_Int (nthArgument (topTerm ctxt) (otherIdx ctxt))
      = Some (-1) ->
    inverse_form ctxt
      (mul IntS (nthArgument (topTerm ctxt) (otherIdx ctxt)) (toWrap ctxt))
| form_select select :
    interpretFunction (Term_functor (topTerm ctxt)) = ARRAY_STORE ->
    interpretFunction select = ARRAY_SELECT ->
    isInterpretedFunction select = true ->
    inverse_form ctxt
      (App select [toWrap ctxt; nthArgument (topTerm ctxt) 1])
| form_destructor :
    isInterpretedFunction (Term_functor (topTerm ctxt)) = false ->
    inverse_form ctxt
      (App (destructorFunctor (Term_functor (topTerm ctxt)) (topIdx ctxt))
         [toWrap ctxt]).

(** *** Invertibility: [canInvertTop] against the table *)

Section CodeProperties.
Context {sig : Signature}.

Lemma nonZero_spec s t :
  nonZero s t = true <->
  exists c, tryInterpretConstant_Frac s t = Some c /\ c <> Q2Qc 0.
Proof.
  unfold nonZero. destruct (tryInterpretConstant_Frac s t) as [c|].
  - unfold Qc_eq_bool. destruct (Qcanon.Qc_eq_dec (Q2Qc 0) c) as [E|E]; simpl.
    + split; [intros Habs; discriminate Habs |]. intros (c' & [= <-] & Hc). congruence.
    + split; [| reflexivity]. intros _. exists c. split; congruence.
  - split; [intros Habs; discriminate Habs |]. intros (c & Hc & _). discriminate.
Qed.

Lemma tryInterpretConstant_Frac_Int t c :
  tryInterpretConstant_Frac IntS t = Some c -> False.
Proof. unfold tryInterpretConstant_Frac. discriminate. Qed.

Lemma tryInvertMulInt_spec ctxt out :
  tryInvertMulInt ctxt = Some out <->
  exists z,
    tryInterpretConstant_Int (nthArgument (topTerm ctxt) (otherIdx ctxt))
      = Some z /\
    (z = 1 /\ out = toWrap ctxt \/
     z = -1 /\
     out = mul IntS (nthArgument (topTerm ctxt) (otherIdx ctxt)) (toWrap ctxt)).
Proof.
  unfold tryInvertMulInt.
  destruct (tryInterpretConstant_Int _) as [z|].
  - destruct (z =? 1) eqn:E1; [apply Z.eqb_eq in E1 | apply Z.eqb_neq in E1].
    + split.
      * intros [= <-]. exists z. auto.
      * intros (z' & [= <-] & [[_ ->] | [Hz _]]); [reflexivity | lia].
    + destruct (z =? -1) eqn:E2;
        [apply Z.eqb_eq in E2 | apply Z.eqb_neq in E2].
      * split.
        -- intros [= <-]. exists z. auto.
        -- intros (z' & [= <-] & [[Hz _] | [_ ->]]); [lia | reflexivity].
      * split; [intros Habs; discriminate Habs |].
        intros (z' & [= <-] & [[Hz _] | [Hz _]]); lia.
  - split; [intros Habs; discriminate Habs |]. intros (z & Hz & _). discriminate.
Qed.

Lemma canInvertMulInt_spec ctxt :
  canInvertMulInt ctxt = true <->
  exists z,
    tryInterpretConstant_Int (nthArgument (topTerm ctxt) (otherIdx ctxt))
      = Some z /\ (z = 1 \/ z = -1).
Proof.
  unfold canInvertMulInt.
  destruct (tryInvertMulInt ctxt) as [out|] eqn:E.
  - apply tryInvertMulInt_spec in E. destruct E as (z & Hz & Hc).
    split; [| reflexivity]. intros _. exists z. split; [exact Hz | tauto].
  - split; [intros Habs; discriminate Habs |]. intros (z & Hz & Hc). exfalso.
    destruct Hc as [-> | ->].
    + assert (H1 : tryInvertMulInt ctxt = Some (toWrap ctxt))
        by (apply tryInvertMulInt_spec; eauto).
      congruence.
    + assert (H1 : tryInvertMulInt ctxt =
                   Some (mul IntS (nthArgument (topTerm ctxt) (otherIdx ctxt))
                           (toWrap ctxt)))
        by (apply tryInvertMulInt_spec; eauto).
      congruence.
Qed.

(** C3. [canInvertTop] answers true exactly on the rows of the table:
    interpreted [add] or [minus] of any numeric sort; [mul] on rationals or
    reals whose other argument is a numeral different from zero; [mul] on
    integers whose other argument is the numeral 1 or -1; array [store] at
    position 2; a term-algebra constructor.  On every other head it answers
    false. *)
Theorem canInvertTop_table (ctxt : InversionContext) :
  (canInvertTop ctxt = true <-> invertible ctxt) /\
  (canInvertTop ctxt = false <-> ~ invertible ctxt).
Proof.
  assert (Hiff : canInvertTop ctxt = true <-> invertible ctxt).
  { unfold canInvertTop. split.
    - destruct (isInterpretedFunction _) eqn:Hi.
      + destruct (interpretFunction _) as [[]|[]|[]|?| | |?] eqn:Hf;
          intros Hc; try discriminate;
          try (eapply inv_add; eassumption);
          try (eapply inv_minus; eassumption).
        * apply canInvertMulInt_spec in Hc. destruct Hc as (z & Hz & Hc).
          eapply inv_mul_int; eassumption.
        * apply nonZero_spec in Hc. destruct Hc as (c & Hc & Hne).
          eapply inv_mul_frac; try eassumption. discriminate.
        * apply nonZero_spec in Hc. destruct Hc as (c & Hc & Hne).
          eapply inv_mul_frac; try eassumption. discriminate.
        * apply Z.eqb_eq in Hc. apply inv_store; assumption.
      + destruct (termAlgebraCons _) eqn:Ht; [| discriminate].
        intros _. apply inv_constructor; assumption.
    - intros [s Hi Hf | s Hi Hf | s c Hi Hf Hs Hc Hne | z Hi Hf Hz Hc
             | Hi Hf Hidx | Hi Ht]; rewrite Hi; try rewrite Hf.
      + destruct s; reflexivity.
      + destruct s; reflexivity.
      + destruct s; [contradiction | |]; apply nonZero_spec; eauto.
      + apply canInvertMulInt_spec. eauto.
      + apply Z.eqb_eq. exact Hidx.
      + rewrite Ht. reflexivity. }
  split; [exact Hiff |].
  destruct (canInvertTop ctxt); split; try discriminate; try reflexivity.
  - intros Hn. destruct Hn. apply Hiff. reflexivity.
  - intros _ Hinv. apply Hiff in Hinv. discriminate.
Qed.


(** In a signature that interprets no term-algebra constructor, the last
    row of the table is every constructor. *)
Lemma canInvertTop_constructor (ctxt : InversionContext) :
  (forall f, isInterpretedFunction f = true -> termAlgebraCons f = false) ->
  termAlgebraCons (Term_functor (topTerm ctxt)) = true ->
  canInvertTop ctxt = true.
Proof.
  intros Hdisjoint Hcons. unfold canInvertTop.
  destruct (isInterpretedFunction _) eqn:Hi.
  - rewrite (Hdisjoint _ Hi) in Hcons. discriminate.
  - rewrite Hcons. reflexivity.
Qed.

(** *** Totality of [invertTop] *)

(** C9. Under its precondition [invertTop] returns a term: none of its
    assertions fails.  For the integer product both the precondition and
    the result come from [tryInvertMulInt], so the [ALWAYS] of
    [doInvertMulInt] holds. *)
Theorem invertTop_total (ctxt : InversionContext) :
  canInvertTop ctxt = true ->
  (exists r, invertTop ctxt = Returned r) /\
  (isInterpretedFunction (Term_functor (topTerm ctxt)) = true ->
   interpretFunction (Term_functor (topTerm ctxt)) = MULTIPLY IntS ->
   exists out, tryInvertMulInt ctxt = Some out /\
               doInvertMulInt ctxt = Returned out /\
               invertTop ctxt = Returned out).
Proof.
  intros Hcan. unfold invertTop. rewrite Hcan. simpl.
  unfold canInvertTop in Hcan.
  destruct (isInterpretedFunction _) eqn:Hi.
  - destruct (interpretFunction _) as [[]|[]|[]|?| | |?] eqn:Hf;
      try discriminate;
      try (split; [eexists; reflexivity | intros _ [=]]).
    + unfold canInvertMulInt in Hcan. unfold doInvertMulInt.
      destruct (tryInvertMulInt ctxt) as [out|]; [| discriminate].
      split; [eauto | intros _ _; eauto].
    + rewrite Hcan. simpl. split; [eexists; reflexivity | intros _ [=]].
  - destruct (termAlgebraCons _); [| discriminate]. simpl.
    split; [eexists; reflexivity | intros [=]].
Qed.


End CodeProperties.

Lemma canInvertTop_table_witness :
  invertible (sig := Example.signature) Example.negated_ctxt /\
  ~ invertible (sig := Example.signature) Example.doubled_ctxt.
Proof.
  split.
  - apply (proj1 (proj1 (canInvertTop_table Example.negated_ctxt))).
    reflexivity.
  - apply (proj1 (proj2 (canInvertTop_table Example.doubled_ctxt))).
    reflexivity.
Defined.

Lemma invertTop_total_witness :
  exists r, invertTop (sig := Example.signature) Example.negated_ctxt
            = Returned r.
Proof.
  refine (proj1 (invertTop_total Example.negated_ctxt _)).
  reflexivity.
Defined.

(** *** Soundness of the inversion *)

Section Inversion.
Context {sig : Signature} {M : Structure}.
Hypothesis model : theory_model sig M.
Variable rho : Z -> value.

Lemma eval_App f args :
  eval rho (App f args) =
  match evals rho args with Some vs => interp f vs | None => None end.
Proof.
  simpl.
  replace ((fix evals (l : list TermList) : option (list value) :=
              match l with
              | [] => Some []
              | a :: l' =>
                  match eval rho a, evals l' with
                  | Some v, Some vs => Some (v :: vs)
                  | _, _ => None
                  end
              end) args) with (evals rho args); [reflexivity |].
  induction args as [|a args IH]; simpl; [reflexivity |].
  rewrite IH. reflexivity.
Qed.

Lemma eval_constant t c :
  interpretConstant t = Some c -> eval rho t = Some (value_of_constant c).
Proof using model.
  intros Hc. destruct (tm_constant _ _ model t c Hc) as (f & -> & Hf).
  rewrite eval_App. exact Hf.
Qed.

Lemma eval_standard f op args :
  isInterpretedFunction f = true ->
  standard (interpretFunction f) = Some op ->
  eval rho (App f args) =
  match evals rho args with Some vs => op vs | None => None end.
Proof using model.
  intros Hi Hs. rewrite eval_App.
  destruct (evals rho args); [| reflexivity].
  apply (tm_interpreted _ _ model); assumption.
Qed.

Lemma eval_symbol i op args :
  standard i = Some op ->
  eval rho (App (getInterpretingSymbol i) args) =
  match evals rho args with Some vs => op vs | None => None end.
Proof using model.
  intros Hs. destruct (tm_symbol _ _ model i op Hs) as [Hi Hf].
  apply eval_standard; [exact Hi | rewrite Hf; exact Hs].
Qed.

Lemma eval_add s a b :
  eval rho (add s a b) =
  match eval rho a, eval rho b with
  | Some x, Some y => plus_value s x y
  | _, _ => None
  end.
Proof using model.
  unfold add. erewrite eval_symbol by reflexivity. simpl.
  destruct (eval rho a), (eval rho b); reflexivity.
Qed.

Lemma eval_minus s a :
  eval rho (minus s a) =
  match eval rho a with Some x => uminus_value s x | None => None end.
Proof using model.
  unfold minus. erewrite eval_symbol by reflexivity. simpl.
  destruct (eval rho a); reflexivity.
Qed.

Lemma eval_mul s a b :
  eval rho (mul s a b) =
  match eval rho a, eval rho b with
  | Some x, Some y => times_value s x y
  | _, _ => None
  end.
Proof using model.
  unfold mul. erewrite eval_symbol by reflexivity. simpl.
  destruct (eval rho a), (eval rho b); reflexivity.
Qed.

Lemma eval_div s a b :
  s <> IntS ->
  eval rho (div s a b) =
  match eval rho a, eval rho b with
  | Some x, Some y => quotient_value s x y
  | _, _ => None
  end.
Proof using model.
  intros Hs. unfold div.
  destruct s; [contradiction | |];
    (erewrite eval_symbol by reflexivity); simpl;
    destruct (eval rho a), (eval rho b); reflexivity.
Qed.

Lemma eval_one s : eval rho (one s) = Some (value_of_constant (one_constant s)).
Proof using model. apply eval_constant, (tm_one _ _ model). Qed.

Lemma Q2R_one : Q2R (Q2Qc 1) = 1%R.
Proof. unfold Q2R. simpl. field. Qed.

Lemma Q2R_nonzero (c : Qc) : c <> Q2Qc 0 -> Q2R c <> 0%R.
Proof.
  intros Hc Hz. apply Hc. apply Qc_is_canon.
  apply eqR_Qeq. rewrite Hz. unfold Q2R. simpl. field.
Qed.

Lemma length2 (l : list TermList) :
  length l = 2%nat -> exists a b, l = [a; b].
Proof. destruct l as [|a [|b [|c l]]]; try discriminate. eauto. Qed.

Lemma length1 (l : list TermList) :
  length l = 1%nat -> exists a, l = [a].
Proof. destruct l as [|a [|b l]]; try discriminate. eauto. Qed.

Lemma length3 (l : list TermList) :
  length l = 3%nat -> exists a b c, l = [a; b; c].
Proof. destruct l as [|a [|b [|c [|d l]]]]; try discriminate. eauto. Qed.

Lemma update_same f j y : update f j y j = y.
Proof.
  unfold update. destruct (excluded_middle_informative (j = j)); congruence.
Qed.

Lemma fields_of_arguments args : forall vs bs i,
  evals rho args = Some vs -> bases vs = Some bs ->
  0 <= i < Z.of_nat (length args) ->
  exists a b, nth_arg args i = Some a /\ nth_field bs i = Some b /\
              eval rho a = Some (Base b).
Proof.
  induction args as [|a args IH]; intros vs bs i Hvs Hbs Hi.
  - simpl in Hi. lia.
  - simpl in Hvs.
    destruct (eval rho a) as [v|] eqn:Ha; [| discriminate].
    destruct (evals rho args) as [vs'|] eqn:Hvs'; [| discriminate].
    injection Hvs as <-. simpl in Hbs.
    destruct v as [b|]; [| discriminate].
    destruct (bases vs') as [bs'|] eqn:Hbs'; [| discriminate].
    injection Hbs as <-. simpl.
    destruct (i =? 0) eqn:E.
    + eauto.
    + apply Z.eqb_neq in E.
      apply (IH vs' bs' (i - 1)); auto.
      rewrite length_cons in Hi. lia.
Qed.

Lemma evals1 a :
  evals rho [a] = match eval rho a with Some x => Some [x] | None => None end.
Proof. simpl. destruct (eval rho a); reflexivity. Qed.

Lemma evals2 a b :
  evals rho [a; b] =
  match eval rho a, eval rho b with
  | Some x, Some y => Some [x; y]
  | _, _ => None
  end.
Proof. simpl. destruct (eval rho a), (eval rho b); reflexivity. Qed.

Lemma evals3 a b c :
  evals rho [a; b; c] =
  match eval rho a, eval rho b, eval rho c with
  | Some x, Some y, Some z => Some [x; y; z]
  | _, _, _ => None
  end.
Proof.
  simpl. destruct (eval rho a), (eval rho b), (eval rho c); reflexivity.
Qed.

Lemma replace_arg_0 a l r : replace_arg (a :: l) 0 r = r :: l.
Proof. reflexivity. Qed.

Lemma replace_arg_1 a b l r : replace_arg (a :: b :: l) 1 r = a :: r :: l.
Proof. reflexivity. Qed.

Ltac numbers :=
  repeat match goal with
    | H : Some _ = Some _ |- _ => injection H as H
    | H : ?x = _ |- _ => is_var x; subst x
    | H : _ = ?x |- _ => is_var x; subst x
    end;
  try (split; [| eexists; reflexivity]);
  do 3 f_equal;
  first [ lia | ring | field; assumption ].

Ltac positions f a0 a1 w :=
  change (otherIdx (context_of f [a0; a1] 0 w)) with 1;
  change (otherIdx (context_of f [a0; a1] 1 w)) with 0;
  change (nthArgument (topTerm (context_of f [a0; a1] 0 w)) 1) with a1;
  change (nthArgument (topTerm (context_of f [a0; a1] 1 w)) 0) with a0;
  change (nthArgument (topTerm (context_of f [a0; a1] 0 w)) 0) with a0;
  change (nthArgument (topTerm (context_of f [a0; a1] 1 w)) 1) with a1;
  cbn [context_of topTerm topIdx toWrap Term_args Term_functor];
  rewrite ?replace_arg_0, ?replace_arg_1.

Lemma plus_inverse f s a0 a1 idx w v :
  isInterpretedFunction f = true -> interpretFunction f = PLUS s ->
  idx = 0 \/ idx = 1 ->
  eval rho w = Some v ->
  let ctxt := context_of f [a0; a1] idx w in
  let r := add s w (minus s (nthArgument (topTerm ctxt) (otherIdx ctxt))) in
  (eval rho (App f [a0; a1]) = Some v ->
   eval rho r = eval rho (nthArgument (topTerm ctxt) idx) /\
   exists x, eval rho r = Some x) /\
  (forall u, has_sort s v -> eval rho (App f [a0; a1]) = Some u ->
             eval rho (substitute ctxt r) = Some v).
Proof using model.
  intros Hi Hf Hidx Hw ctxt r. subst ctxt r. unfold substitute.
  pose proof (fun args => eval_standard f _ args Hi
                            (eq_trans (f_equal standard Hf) eq_refl)) as Hop.
  destruct Hidx as [-> | ->]; positions f a0 a1 w;
    rewrite !Hop, !evals2, !eval_add, !eval_minus, Hw;
    destruct (eval rho a0) as [x0|]; destruct (eval rho a1) as [x1|];
    (split; [intros Ht | intros u Hs Ht]); try discriminate;
    destruct s, x0 as [[]|], x1 as [[]|], v as [[]|]; simpl in *;
    try discriminate; try contradiction; numbers.
Qed.

Lemma minus_inverse f s a0 w v :
  isInterpretedFunction f = true -> interpretFunction f = UNARY_MINUS s ->
  eval rho w = Some v ->
  let ctxt := context_of f [a0] 0 w in
  let r := minus s w in
  (eval rho (App f [a0]) = Some v ->
   eval rho r = eval rho (nthArgument (topTerm ctxt) 0) /\
   exists x, eval rho r = Some x) /\
  (forall u, has_sort s v -> eval rho (App f [a0]) = Some u ->
             eval rho (substitute ctxt r) = Some v).
Proof using model.
  intros Hi Hf Hw ctxt r. subst ctxt r. unfold substitute.
  pose proof (fun args => eval_standard f _ args Hi
                            (eq_trans (f_equal standard Hf) eq_refl)) as Hop.
  change (nthArgument (topTerm (context_of f [a0] 0 w)) 0) with a0.
  cbn [context_of topTerm topIdx toWrap Term_args Term_functor].
  rewrite replace_arg_0, !Hop, !evals1, !eval_minus, Hw.
  destruct (eval rho a0) as [x0|];
    (split; [intros Ht | intros u Hs Ht]); try discriminate;
    destruct s, x0 as [[]|], v as [[]|]; simpl in *;
    try discriminate; try contradiction; numbers.
Qed.

Lemma eval_numeral_Frac s t c :
  tryInterpretConstant_Frac s t = Some c ->
  eval rho t = Some (value_of_constant
                       (match s with RealS => RealC c | _ => RatC c end)).
Proof using model.
  unfold tryInterpretConstant_Frac. intros Hc. apply eval_constant.
  destruct s, (interpretConstant t) as [[]|]; try discriminate; congruence.
Qed.

Lemma eval_numeral_Int t z :
  tryInterpretConstant_Int t = Some z -> eval rho t = Some (Base (BInt z)).
Proof using model.
  unfold tryInterpretConstant_Int. intros Hc.
  change (Base (BInt z)) with (value_of_constant (IntC z)).
  apply eval_constant.
  destruct (interpretConstant t) as [[]|]; try discriminate; congruence.
Qed.

Lemma mul_frac_inverse f s a0 a1 idx w v c :
  isInterpretedFunction f = true -> interpretFunction f = MULTIPLY s ->
  s <> IntS ->
  idx = 0 \/ idx = 1 ->
  eval rho w = Some v ->
  let ctxt := context_of f [a0; a1] idx w in
  let other := nthArgument (topTerm ctxt) (otherIdx ctxt) in
  let r := mul s w (div s (one s) other) in
  tryInterpretConstant_Frac s other = Some c -> c <> Q2Qc 0 ->
  (eval rho (App f [a0; a1]) = Some v ->
   eval rho r = eval rho (nthArgument (topTerm ctxt) idx) /\
   exists x, eval rho r = Some x) /\
  (forall u, has_sort s v -> eval rho (App f [a0; a1]) = Some u ->
             eval rho (substitute ctxt r) = Some v).
Proof using model.
  intros Hi Hf Hs Hidx Hw ctxt other r. subst ctxt other r.
  unfold substitute.
  pose proof (fun args => eval_standard f _ args Hi
                            (eq_trans (f_equal standard Hf) eq_refl)) as Hop.
  destruct Hidx as [-> | ->]; positions f a0 a1 w; intros Hc Hne;
    pose proof (Q2R_nonzero c Hne) as HneR;
    apply eval_numeral_Frac in Hc;
    rewrite !Hop, !evals2, !eval_mul, !(eval_div _ _ _ Hs), !eval_one, Hw,
      ?Hc;
    [destruct (eval rho a0) as [x0|] | destruct (eval rho a1) as [x0|]];
    (split; [intros Ht | intros u Hv Ht]);
    try (simpl in Ht; discriminate Ht);
    destruct s; try contradiction;
    destruct x0 as [[]|], v as [[]|]; simpl in *;
    try discriminate; try contradiction;
    try change (Q2R (Qred 1)) with (Q2R (Q2Qc 1));
    rewrite ?Q2R_one;
    try destruct (Qcanon.Qc_eq_dec c (Q2Qc 0)) as [|_];
    try destruct (Req_dec_T (Q2R c) 0) as [|_];
    try contradiction; numbers.
Qed.

Lemma mul_int_inverse f a0 a1 idx w v z :
  isInterpretedFunction f = true -> interpretFunction f = MULTIPLY IntS ->
  idx = 0 \/ idx = 1 ->
  eval rho w = Some v ->
  let ctxt := context_of f [a0; a1] idx w in
  let other := nthArgument (topTerm ctxt) (otherIdx ctxt) in
  tryInterpretConstant_Int other = Some z ->
  forall r, z = 1 /\ r = w \/ z = -1 /\ r = mul IntS other w ->
  (eval rho (App f [a0; a1]) = Some v ->
   eval rho r = eval rho (nthArgument (topTerm ctxt) idx) /\
   exists x, eval rho r = Some x) /\
  (forall u, has_sort IntS v -> eval rho (App f [a0; a1]) = Some u ->
             eval rho (substitute ctxt r) = Some v).
Proof using model.
  intros Hi Hf Hidx Hw ctxt other. subst ctxt other.
  unfold substitute.
  pose proof (fun args => eval_standard f _ args Hi
                            (eq_trans (f_equal standard Hf) eq_refl)) as Hop.
  destruct Hidx as [-> | ->]; positions f a0 a1 w;
    intros Hc r [[-> ->] | [-> ->]];
    rewrite ?replace_arg_0, ?replace_arg_1;
    apply eval_numeral_Int in Hc;
    rewrite !Hop, !evals2, ?eval_mul, ?Hw, ?Hc;
    [destruct (eval rho a0) as [x0|] | destruct (eval rho a0) as [x0|]
    |destruct (eval rho a1) as [x0|] | destruct (eval rho a1) as [x0|]];
    (split; [intros Ht | intros u Hv Ht]);
    try (simpl in Ht; discriminate Ht);
    destruct x0 as [[]|], v as [[]|]; simpl in *;
    try discriminate; try contradiction; numbers.
Qed.

Lemma store_inverse f a i x w v select :
  isInterpretedFunction f = true -> interpretFunction f = ARRAY_STORE ->
  isInterpretedFunction select = true ->
  interpretFunction select = ARRAY_SELECT ->
  eval rho w = Some v ->
  let ctxt := context_of f [a; i; x] 2 w in
  let r := App select [w; nthArgument (topTerm ctxt) 1] in
  eval rho (App f [a; i; x]) = Some v ->
  eval rho r = eval rho (nthArgument (topTerm ctxt) 2) /\
  exists y, eval rho r = Some y.
Proof using model.
  intros Hi Hf His Hfs Hw ctxt r. subst ctxt r.
  pose proof (fun args => eval_standard f _ args Hi
                            (eq_trans (f_equal standard Hf) eq_refl)) as Hop.
  pose proof (fun args => eval_standard select _ args His
                            (eq_trans (f_equal standard Hfs) eq_refl)) as Hsel.
  change (nthArgument (topTerm (context_of f [a; i; x] 2 w)) 1) with i.
  change (nthArgument (topTerm (context_of f [a; i; x] 2 w)) 2) with x.
  rewrite Hop, Hsel, evals3, evals2, Hw.
  destruct (eval rho a) as [[|va]|], (eval rho i) as [[vi|]|],
    (eval rho x) as [[vx|]|]; simpl; try discriminate.
  intros [= <-]. simpl. rewrite update_same. eauto.
Qed.

Lemma constructor_inverse f args idx w v :
  isInterpretedFunction f = false -> termAlgebraCons f = true ->
  length args = length (arg (fnType f)) ->
  0 <= idx < Z.of_nat (length args) ->
  eval rho w = Some v ->
  let ctxt := context_of f args idx w in
  let r := App (destructorFunctor f idx) [w] in
  eval rho (App f args) = Some v ->
  eval rho r = eval rho (nthArgument (topTerm ctxt) idx) /\
  exists y, eval rho r = Some y.
Proof using model.
  intros Hi Hc Hlen Hidx Hw ctxt r. subst ctxt r.
  rewrite !eval_App, evals1, Hw.
  destruct (evals rho args) as [vs|] eqn:Hvs; [| discriminate].
  rewrite (tm_constructor _ _ model f Hi Hc).
  rewrite (tm_destructor _ _ model f idx Hi Hc) by (rewrite <- Hlen; exact Hidx).
  unfold construct. destruct (bases vs) as [bs|] eqn:Hbs; [| discriminate].
  intros [= <-].
  destruct (fields_of_arguments args vs bs idx Hvs Hbs Hidx)
    as (a & b & Ha & Hb & Hab).
  unfold nthArgument. cbn [context_of topTerm Term_args].
  rewrite Ha, Hab. simpl. rewrite Z.eqb_refl, Hb. eauto.
Qed.

Lemma position2 (idx : Z) : 0 <= idx < Z.of_nat 2 -> idx = 0 \/ idx = 1.
Proof. lia. Qed.

Lemma arithmetic_head_sort f args idx w s s' :
  arithmetic_head (context_of f args idx w) s' ->
  interpretFunction f = PLUS s \/ interpretFunction f = UNARY_MINUS s \/
  interpretFunction f = MULTIPLY s ->
  s' = s.
Proof.
  intros [_ H1] H2. cbn [context_of topTerm Term_functor] in H1.
  destruct H1 as [H1 | [H1 | H1]], H2 as [H2 | [H2 | H2]]; congruence.
Qed.

(** C4, as the code has it.  Under its precondition [invertTop] returns the
    term of the matching row: [w + (-other)] for [add], [-w] for [minus],
    [w * (1/other)] for the rational and real [mul], [w] or [other * w] for
    the integer [mul], [select(w, i)] for [store] at position 2 and the
    destructor of the position applied to [w] for a constructor.  In every
    model of the theory, if [t] evaluates to the value of [w] then the
    argument of [t] at the position evaluates to the value of that term;
    and for [add], [minus] and [mul], substituting the term at the position
    makes [t] evaluate to the value of [w]. *)
Theorem invertTop_inverse (ctxt : InversionContext) (r : TermList) (v : value) :
  well_formed ctxt -> canInvertTop ctxt = true ->
  invertTop ctxt = Returned r ->
  eval rho (toWrap ctxt) = Some v ->
  inverse_form ctxt r /\
  (eval rho (TermList_of (topTerm ctxt)) = Some v ->
   eval rho r = eval rho (nthArgument (topTerm ctxt) (topIdx ctxt)) /\
   exists x, eval rho r = Some x) /\
  (forall s u,
      arithmetic_head ctxt s -> has_sort s v ->
      eval rho (TermList_of (topTerm ctxt)) = Some u ->
      eval rho (substitute ctxt r) = Some v).
Proof using model.
  destruct ctxt as [[f args] idx w].
  change {| topTerm := {| Term_functor := f; Term_args := args |};
            topIdx := idx; toWrap := w |} with (context_of f args idx w).
  intros [Hlen Hidx] Hcan Hinv Hw.
  unfold invertTop in Hinv. rewrite Hcan in Hinv.
  unfold canInvertTop in Hcan. unfold arity in Hlen.
  cbn [context_of topTerm topIdx toWrap Term_functor Term_args TermList_of
         negb] in *.
  destruct (isInterpretedFunction f) eqn:Hi.
  - destruct (interpretFunction f) as [s|s|s|s| | |n] eqn:Hf;
      cbn [arity_of] in Hlen.
    + (* add *)
      injection Hinv as <-. rewrite Hlen in Hidx.
      destruct (length2 _ Hlen) as (a0 & a1 & ->).
      destruct (plus_inverse f s a0 a1 idx w v Hi Hf (position2 _ Hidx) Hw)
        as [Hsol Hround].
      split; [apply form_add; exact Hf |]. split; [exact Hsol |].
      intros s' u Hhead Hs Hu.
      rewrite (arithmetic_head_sort _ _ _ _ s _ Hhead) in Hs by auto.
      eauto.
    + (* minus *)
      injection Hinv as <-. rewrite Hlen in Hidx.
      destruct (length1 _ Hlen) as (a0 & ->).
      assert (idx = 0) as -> by (simpl in Hidx; lia).
      destruct (minus_inverse f s a0 w v Hi Hf Hw) as [Hsol Hround].
      split; [apply form_minus; exact Hf |]. split; [exact Hsol |].
      intros s' u Hhead Hs Hu.
      rewrite (arithmetic_head_sort _ _ _ _ s _ Hhead) in Hs by auto.
      eauto.
    + (* mul *)
      rewrite Hlen in Hidx.
      destruct (length2 _ Hlen) as (a0 & a1 & ->).
      apply position2 in Hidx.
      assert (Hrows :
                inverse_form (context_of f [a0; a1] idx w) r /\
                (eval rho (App f [a0; a1]) = Some v ->
                 eval rho r =
                 eval rho
                   (nthArgument (topTerm (context_of f [a0; a1] idx w)) idx) /\
                 exists x, eval rho r = Some x) /\
                (forall u, has_sort s v ->
                           eval rho (App f [a0; a1]) = Some u ->
                           eval rho (substitute (context_of f [a0; a1] idx w) r)
                           = Some v)).
      { destruct s.
        - unfold doInvertMulInt in Hinv.
          destruct (tryInvertMulInt _) as [out|] eqn:Hout; [| discriminate].
          injection Hinv as ->.
          apply tryInvertMulInt_spec in Hout.
          destruct Hout as (z & Hz & Hcases).
          split.
          + destruct Hcases as [[-> ->] | [-> ->]];
              [apply form_mul_one | apply form_mul_minus_one]; assumption.
          + apply (mul_int_inverse f a0 a1 idx w v z Hi Hf Hidx Hw Hz r).
            exact Hcases.
        - injection Hinv as <-.
          apply nonZero_spec in Hcan. destruct Hcan as (c & Hc & Hne).
          split; [apply form_mul_frac; [exact Hf | discriminate] |].
          apply (mul_frac_inverse f RatS a0 a1 idx w v c Hi Hf); auto.
        - injection Hinv as <-.
          apply nonZero_spec in Hcan. destruct Hcan as (c & Hc & Hne).
          split; [apply form_mul_frac; [exact Hf | discriminate] |].
          apply (mul_frac_inverse f RealS a0 a1 idx w v c Hi Hf); auto. }
      destruct Hrows as (Hform & Hsol & Hround).
      split; [exact Hform |]. split; [exact Hsol |].
      intros s' u Hhead Hs Hu.
      rewrite (arithmetic_head_sort _ _ _ _ s _ Hhead) in Hs by auto.
      eauto.
    + destruct s; discriminate.
    + discriminate.
    + (* store *)
      rewrite Hcan in Hinv. injection Hinv as <-.
      apply Z.eqb_eq in Hcan. subst idx.
      destruct (length3 _ Hlen) as (a & i & x & ->).
      set (ty := getFunctionType _ _).
      destruct (tm_select _ _ model ty) as [His Hfs].
      split; [eapply form_select; eassumption |].
      split.
      * apply (store_inverse f a i x w v _ Hi Hf His Hfs Hw).
      * intros s' u [_ [H1 | [H1 | H1]]];
          cbn [context_of topTerm Term_functor] in H1; congruence.
    + discriminate.
  - (* constructor *)
    destruct (termAlgebraCons f) eqn:Ht; [| discriminate].
    injection Hinv as <-.
    split; [apply form_destructor; exact Hi |].
    split.
    + apply (constructor_inverse f args idx w v Hi Ht Hlen Hidx Hw).
    + intros s' u [H1 _]. cbn [context_of topTerm Term_functor] in H1.
      congruence.
Qed.

End Inversion.

Lemma example_models : theory_model Example.signature Example.structure.
Proof.
  constructor.
  - intros f op Hi Hs vs. simpl in *.
    destruct (Example.kind_of f); try discriminate.
    rewrite Hs. reflexivity.
  - intros t c Hc. simpl in Hc.
    destruct t as [|f [|]]; try discriminate.
    exists f. split; [reflexivity |]. simpl.
    destruct (Example.kind_of f); try discriminate. congruence.
  - intros c Hi Ht vs. simpl in Ht.
    apply orb_true_iff in Ht.
    destruct Ht as [Ht | Ht]; apply Z.eqb_eq in Ht; subst c; reflexivity.
  - intros c i Hi Ht Hidx vs. simpl in Ht.
    apply orb_true_iff in Ht.
    destruct Ht as [Ht | Ht]; apply Z.eqb_eq in Ht; subst c.
    + assert (i = 0 \/ i = 1) as [-> | ->] by (simpl in Hidx; lia);
        reflexivity.
    + simpl in Hidx. lia.
  - intros i op Hs.
    destruct i as [[]|[]|[]|[]| | |]; try discriminate; split; reflexivity.
  - intros ty. split; reflexivity.
  - intros []; reflexivity.
Qed.

Lemma invertTop_inverse_witness :
  eval Example.numbers
    (substitute Example.sum_ctxt
       (add IntS (Var 1) (minus IntS (Example.num 53))))
  = Some (Base (BInt 5)).
Proof.
  refine (proj2 (proj2 (invertTop_inverse example_models Example.numbers
                          Example.sum_ctxt _ (Base (BInt 5)) _ _ _ _))
            IntS (Base (BInt 5)) _ _ _).
  - split; [reflexivity | simpl; lia].
  - reflexivity.
  - reflexivity.
  - reflexivity.
  - split; [reflexivity | left; reflexivity].
  - exact I.
  - reflexivity.
Defined.

(** Scenario S5 of the specification: [store(A, i, x) = S] at position 2
    is inverted to [select(S, i)]. *)
Lemma invertTop_S5 :
  invertTop Example.store_ctxt = Returned (App 31 [Var 3; Var 1]).
Proof. reflexivity. Qed.

(** C4 as stated fails for [store]: with [X0] the array of zeros and [X3]
    the array of ones, [store(X0, X1, select(X3, X1))] is an array of zeros
    but for one cell, not [X3]. *)
Lemma store_inversion_not_round_trip :
  well_formed Example.store_ctxt /\
  canInvertTop Example.store_ctxt = true /\
  invertTop Example.store_ctxt = Returned (App 31 [Var 3; Var 1]) /\
  eval Example.arrays
    (substitute Example.store_ctxt (App 31 [Var 3; Var 1]))
  <> eval Example.arrays (toWrap Example.store_ctxt).
Proof.
  split; [split; [reflexivity | simpl; lia] |].
  split; [reflexivity |]. split; [reflexivity |].
  simpl. intros [= Heq].
  apply (f_equal (fun a => a (BInt 1))) in Heq.
  unfold update in Heq.
  destruct (excluded_middle_informative (BInt 1 = BInt 0)); discriminate.
Qed.

(** It fails for a constructor too: with [X0 = 5] and [X2] the list [7],
    [cons(X0, tail(X2))] is the list [5]. *)
Lemma constructor_inversion_not_round_trip :
  well_formed Example.cons_ctxt /\
  canInvertTop Example.cons_ctxt = true /\
  invertTop Example.cons_ctxt = Returned (App 42 [Var 2]) /\
  eval Example.lists (substitute Example.cons_ctxt (App 42 [Var 2]))
  = Some (Base (BData 40 [BInt 5; BData 43 []])) /\
  eval Example.lists (toWrap Example.cons_ctxt)
  = Some (Base (BData 40 [BInt 7; BData 43 []])).
Proof.
  split; [split; [reflexivity | simpl; lia] |].
  repeat split; reflexivity.
Qed.

End Inverters.



(** ** CASC/CASCMode.hpp *)

Module CASCMode.
Local Open Scope Z_scope.

(** [typedef Stack<string> Schedule;] in the order of iteration, and
    [typedef Set<string> StrategySet;]. *)
Definition Schedule := list string.
Abbreviation StrategySet := (gset string).

(** What [runSchedule] relies on: the state [W] of the process with its
    clock, [getSliceTime] and [runSlice], which the header declares. *)
Class Slices (W : Type) := {
  (** [getSliceTime(sliceCode, chopped)]: the time of the slice in
      deciseconds, and the strategy code in [chopped] *)
  getSliceTime : string -> Z * string;
  (** [runSlice(sliceCode, ds)]: true iff the proof or satisfiability was
      found *)
  runSlice : string -> Z -> W -> bool * W;
  (** what is left in state [w] of a budget of [ds] deciseconds *)
  remainingBudget : Z -> W -> Z
}.

Section Schedule.
Context {W : Type} {S : Slices W}.

(** Modelled from the spec: the body of [CASCMode::runSchedule], which is
    defined in [CASCMode.cpp] and not in the header.  Section 4.7 of the
    specification gives the loop; it gives no role to the parameter
    [fallback] of the declaration. *)
Fixpoint runSchedule (schedule : Schedule) (ds : Z) (remember : StrategySet)
  (fallback : bool) (w : W) : bool * StrategySet * W :=
  match schedule with
  | [] => (false, remember, w)
  | sliceCode :: rest =>
      let '(sliceTime, chopped) := getSliceTime sliceCode in
      if decide (chopped ∈ remember)
      then runSchedule rest ds remember fallback w
      else
        let '(found, w') :=
          runSlice sliceCode (Z.min sliceTime (remainingBudget ds w)) w in
        if found : bool then (true, remember, w')
        else runSchedule rest ds ({[chopped]} ∪ remember) fallback w'
  end.

(** The same run, as the list of the slices it executes: the slice, the
    budget it is given and whether it succeeds, oldest first. *)
Fixpoint executed (schedule : Schedule) (ds : Z) (remember : StrategySet)
  (w : W) : list (string * Z * bool) :=
  match schedule with
  | [] => []
  | sliceCode :: rest =>
      let '(sliceTime, chopped) := getSliceTime sliceCode in
      if decide (chopped ∈ remember)
      then executed rest ds remember w
      else
        let budget := Z.min sliceTime (remainingBudget ds w) in
        let '(found, w') := runSlice sliceCode budget w in
        (sliceCode, budget, found) ::
        (if found : bool then []
         else executed rest ds ({[chopped]} ∪ remember) w')
  end.

Definition code (sliceCode : string) : string := snd (getSliceTime sliceCode).
Definition time (sliceCode : string) : Z := fst (getSliceTime sliceCode).

(** The claim, in its own words, as a relation between a schedule, the set
    [remember] and the state before, and the answer, the set and the state
    after. *)
Inductive schedule_run (ds : Z)
  : Schedule -> StrategySet -> W -> bool -> StrategySet -> W -> Prop :=
| run_exhausted remember w :
    schedule_run ds [] remember w false remember w
| run_skipped sliceCode rest remember w found remember' w' :
    code sliceCode ∈ remember ->
    schedule_run ds rest remember w found remember' w' ->
    schedule_run ds (sliceCode :: rest) remember w found remember' w'
| run_succeeded sliceCode rest remember w w' :
    code sliceCode ∉ remember ->
    runSlice sliceCode (Z.min (time sliceCode) (remainingBudget ds w)) w
      = (true, w') ->
    schedule_run ds (sliceCode :: rest) remember w true remember w'
| run_failed sliceCode rest remember w w1 found remember' w' :
    code sliceCode ∉ remember ->
    runSlice sliceCode (Z.min (time sliceCode) (remainingBudget ds w)) w
      = (false, w1) ->
    schedule_run ds rest ({[code sliceCode]} ∪ remember) w1 found remember' w' ->
    schedule_run ds (sliceCode :: rest) remember w found remember' w'.

End Schedule.

(** *** A scheduler to run

    Slice strings are [<code>_<tdeci>]; the state is the clock in
    deciseconds; a slice uses up its budget and succeeds when its code is
    [good]. *)
Module Example.

Definition is_digit (c : Ascii.ascii) : bool :=
  let n := Z.of_nat (Ascii.nat_of_ascii c) in (48 <=? n) && (n <=? 57).

Fixpoint decimal (acc : Z) (s : string) : Z :=
  match s with
  | EmptyString => acc
  | String c s' =>
      if is_digit c
      then decimal (10 * acc + (Z.of_nat (Ascii.nat_of_ascii c) - 48)) s'
      else acc
  end.

(** The string before the last underscore and the string after it. *)
Fixpoint chop (s : string) : option (string * string) :=
  match s with
  | EmptyString => None
  | String c s' =>
      match chop s' with
      | Some (before, after) => Some (String c before, after)
      | None =>
          if Ascii.eqb c (Ascii.ascii_of_nat 95) then Some (EmptyString, s')
          else None
      end
  end.

Definition slice_time (sliceCode : string) : Z * string :=
  match chop sliceCode with
  | Some (before, after) => (decimal 0 after, before)
  | None => (0, sliceCode)
  end.

#[global] Instance slices : Slices Z := {|
  getSliceTime := slice_time;
  runSlice sliceCode budget clock :=
    (String.eqb (snd (slice_time sliceCode)) "good", clock + budget);
  remainingBudget ds clock := ds - clock
|}.

Definition portfolio : Schedule :=
  ["dis+11_10"; "ott-1_30"; "dis+11_20"; "good_50"; "lrs+2_5"]%string.

End Example.

(** *** Properties of [runSchedule] *)

Section ScheduleProperties.
Context {W : Type} {S : Slices W}.

Lemma schedule_run_function ds schedule remember w found remember' w' :
  schedule_run ds schedule remember w found remember' w' ->
  forall fallback,
    runSchedule schedule ds remember fallback w = (found, remember', w').
Proof.
  induction 1 as [remember w
                 | sliceCode rest remember w found remember' w' Hin _ IH
                 | sliceCode rest remember w w' Hin Hrun
                 | sliceCode rest remember w w1 found remember' w' Hin Hrun _ IH];
    intros fallback; simpl; [reflexivity | ..];
    unfold code, time in *;
    destruct (getSliceTime sliceCode) as [sliceTime chopped]; simpl in *.
  - rewrite decide_True by exact Hin. apply IH.
  - rewrite decide_False by exact Hin. rewrite Hrun. reflexivity.
  - rewrite decide_False by exact Hin. rewrite Hrun. apply IH.
Qed.

(** C8. [runSchedule] goes through the slices in order; it skips a slice
    whose code is in [remember]; it runs any other slice with the budget
    [min(sliceTime, remaining budget)], returns true at once if the slice
    succeeds, and otherwise inserts the code into [remember] and goes on;
    with no slice left it returns false. *)
Theorem runSchedule_follows_schedule (schedule : Schedule) (ds : Z)
  (remember : StrategySet) (fallback : bool) (w : W) :
  forall found remember' w',
    runSchedule schedule ds remember fallback w = (found, remember', w') <->
    schedule_run ds schedule remember w found remember' w'.
Proof.
  intros found remember' w'. split; [| intros H; apply schedule_run_function, H].
  revert remember w.
  induction schedule as [|sliceCode rest IH]; intros remember w; simpl.
  - intros [= <- <- <-]. constructor.
  - destruct (getSliceTime sliceCode) as [sliceTime chopped] eqn:Hslice.
    destruct (decide (chopped ∈ remember)) as [Hin | Hin].
    + intros Hrest. apply run_skipped; [| apply IH, Hrest].
      unfold code. rewrite Hslice. exact Hin.
    + destruct (runSlice sliceCode _ w) as [[] w1] eqn:Hrun.
      * intros [= <- <- <-]. apply run_succeeded.
        -- unfold code. rewrite Hslice. exact Hin.
        -- unfold time. rewrite Hslice. exact Hrun.
      * intros Hrest.
        assert (Hcode : code sliceCode = chopped)
          by (unfold code; rewrite Hslice; reflexivity).
        apply run_failed with (w1 := w1).
        -- rewrite Hcode. exact Hin.
        -- unfold time. rewrite Hslice. exact Hrun.
        -- rewrite Hcode. apply IH, Hrest.
Qed.

(** [remember] only grows, and after a failed schedule it holds the code
    of every slice. *)
Lemma schedule_run_remember ds schedule remember w found remember' w' :
  schedule_run ds schedule remember w found remember' w' ->
  remember ⊆ remember' /\
  (found = false -> forall sliceCode,
      sliceCode ∈ schedule -> code sliceCode ∈ remember').
Proof.
  induction 1 as [remember w
                 | sliceCode rest remember w found remember' w' Hin _ IH
                 | sliceCode rest remember w w' Hin Hrun
                 | sliceCode rest remember w w1 found remember' w' Hin Hrun _ IH].
  - split; [done |]. intros _ sliceCode Hs. inversion Hs.
  - destruct IH as [Hsub Hall]. split; [exact Hsub |].
    intros Hf sliceCode' Hs. apply elem_of_cons in Hs as [-> | Hs].
    + apply Hsub, Hin.
    + apply Hall; assumption.
  - split; [done | discriminate].
  - destruct IH as [Hsub Hall]. split; [set_solver |].
    intros Hf sliceCode' Hs. apply elem_of_cons in Hs as [-> | Hs].
    + apply Hsub. set_solver.
    + apply Hall; assumption.
Qed.

(** The slices executed are taken from the schedule in its order; none has
    a code that was in [remember], and no code is executed twice; every
    budget is [min(sliceTime, remaining budget)] by the definition of
    [executed]. *)
Lemma executed_in_order ds schedule remember w :
  sublist (map (fun e => fst (fst e)) (executed schedule ds remember w))
    schedule.
Proof.
  revert remember w.
  induction schedule as [|sliceCode rest IH]; intros remember w; simpl.
  - constructor.
  - destruct (getSliceTime sliceCode) as [sliceTime chopped].
    destruct (decide (chopped ∈ remember)).
    + apply sublist_cons, IH.
    + destruct (runSlice sliceCode _ w) as [[] w1]; simpl.
      * apply sublist_skip, sublist_nil_l.
      * apply sublist_skip, IH.
Qed.

Lemma executed_fresh ds schedule remember w :
  let codes :=
    map (fun e => code (fst (fst e))) (executed schedule ds remember w) in
  NoDup codes /\ forall c, c ∈ codes -> c ∉ remember.
Proof.
  revert remember w.
  induction schedule as [|sliceCode rest IH]; intros remember w; simpl.
  - split; [constructor |]. intros c Hc. inversion Hc.
  - destruct (getSliceTime sliceCode) as [sliceTime chopped] eqn:Hslice.
    destruct (decide (chopped ∈ remember)) as [Hin | Hin].
    + apply IH.
    + assert (Hcode : code sliceCode = chopped)
        by (unfold code; rewrite Hslice; reflexivity).
      destruct (runSlice sliceCode _ w) as [[] w1]; simpl; rewrite Hcode.
      * split; [apply NoDup_singleton |].
        intros c Hc. apply list_elem_of_singleton in Hc as ->. exact Hin.
      * destruct (IH ({[chopped]} ∪ remember) w1) as [Hnd Hfresh].
        split.
        -- constructor; [| exact Hnd].
           intros Hc. apply Hfresh in Hc.
           apply Hc, elem_of_union_l, elem_of_singleton. reflexivity.
        -- intros c Hc. apply elem_of_cons in Hc as [-> | Hc]; [exact Hin |].
           apply Hfresh in Hc. intros Hr. apply Hc, elem_of_union_r, Hr.
Qed.

(** The answer is that of the last slice executed; the slices before it
    failed. *)
Lemma executed_answer ds schedule remember fallback w :
  let log := map snd (executed schedule ds remember w) in
  fst (fst (runSchedule schedule ds remember fallback w)) = true /\
    (exists failed, log = failed ++ [true] /\ Forall (fun b => b = false) failed)
  \/
  fst (fst (runSchedule schedule ds remember fallback w)) = false /\
    Forall (fun b => b = false) log.
Proof.
  revert remember w.
  induction schedule as [|sliceCode rest IH]; intros remember w; simpl.
  - right. split; [reflexivity | constructor].
  - destruct (getSliceTime sliceCode) as [sliceTime chopped].
    destruct (decide (chopped ∈ remember)).
    + apply IH.
    + destruct (runSlice sliceCode _ w) as [[] w1]; simpl.
      * left. split; [reflexivity |]. exists []. split; [reflexivity | constructor].
      * destruct (IH ({[chopped]} ∪ remember) w1)
          as [[Ht (failed & Hlog & Hall)] | [Hf Hall]].
        -- left. split; [exact Ht |]. exists (false :: failed).
           simpl in *. rewrite Hlog. split; [reflexivity |].
           constructor; [reflexivity | exact Hall].
        -- right. split; [exact Hf |]. constructor; [reflexivity | exact Hall].
Qed.

End ScheduleProperties.

Lemma runSchedule_follows_schedule_witness :
  schedule_run (S := Example.slices) 60 Example.portfolio ∅ 0
    true ({["ott-1"%string]} ∪ ({["dis+11"%string]} ∪ ∅)) 60.
Proof.
  apply (proj1 (runSchedule_follows_schedule (S := Example.slices)
                  Example.portfolio 60 ∅ false 0 _ _ _)).
  reflexivity.
Defined.

End CASCMode.


(** ** Indexing/LiteralSubstitutionTree.hpp *)

Module LiteralIndex.
Import Inverters.

(** *** Terms, substitutions and unification

    The header only declares the index; its retrieval is specified
    through unifiers, which need the notions of this section.
    Terms are the [TermList] of the kernel. *)

Fixpoint TermList_induction (P : TermList -> Prop)
  (HVar : forall v, P (Var v))
  (HApp : forall f args, Forall P args -> P (App f args))
  (t : TermList) : P t :=
  match t with
  | Var v => HVar v
  | App f args =>
      HApp f args
        ((fix all (l : list TermList) : Forall P l :=
            match l with
            | [] => @List.Forall_nil _ P
            | a :: l' =>
                @List.Forall_cons _ P a l'
                  (TermList_induction P HVar HApp a) (all l')
            end) args)
  end.

Fixpoint TermList_eqb (t u : TermList) : bool :=
  match t, u with
  | Var x, Var y => (x =? y)%Z
  | App f ts, App g us =>
      (f =? g)%Z &&
      (fix all (ts us : list TermList) : bool :=
         match ts, us with
         | [], [] => true
         | a :: ts', b :: us' => TermList_eqb a b && all ts' us'
         | _, _ => false
         end) ts us
  | _, _ => false
  end.

Definition Substitution := Z -> TermList.

Fixpoint apply (s : Substitution) (t : TermList) : TermList :=
  match t with
  | Var x => s x
  | App f ts => App f (map (apply s) ts)
  end.

Definition identity : Substitution := Var.

(** [x := t]. *)
Definition binding (x : Z) (t : TermList) : Substitution :=
  fun y => if (y =? x)%Z then t else Var y.

(** First [s1], then [s2]. *)
Definition compose (s1 s2 : Substitution) : Substitution :=
  fun x => apply s2 (s1 x).

Fixpoint vars (t : TermList) : gset Z :=
  match t with
  | Var x => {[x]}
  | App _ ts => ⋃ (map vars ts)
  end.

Fixpoint term_size (t : TermList) : nat :=
  match t with
  | Var _ => 1
  | App _ ts => S (list_sum (map term_size ts))
  end.

Definition equation : Type := TermList * TermList.

Definition equations_vars (E : list equation) : gset Z :=
  ⋃ (map (fun e : equation => vars (fst e) ∪ vars (snd e)) E).

Definition equations_size (E : list equation) : nat :=
  list_sum
    (map (fun e : equation => (term_size (fst e) + term_size (snd e))%nat) E).

Definition apply_equations (s : Substitution) (E : list equation)
  : list equation :=
  map (fun e : equation => (apply s (fst e), apply s (snd e))) E.

Definition unifies (s : Substitution) (E : list equation) : Prop :=
  Forall (fun e : equation => apply s (fst e) = apply s (snd e)) E.

(** [s] is a most general unifier: it unifies, and every unifier is an
    instance of it. *)
Definition is_mgu (s : Substitution) (E : list equation) : Prop :=
  unifies s E /\
  forall s', unifies s' E -> exists d, forall x, s' x = apply d (s x).

(** Equations are decomposed until a variable meets a term. *)
Inductive decomposed :=
| Solved
| Clash
| Bind (x : Z) (t : TermList) (rest : list equation)
| Exhausted.

Fixpoint decompose (fuel : nat) (E : list equation) : decomposed :=
  match fuel with
  | O => Exhausted
  | S fuel' =>
      match E with
      | [] => Solved
      | (Var x, Var y) :: E' =>
          if (x =? y)%Z then decompose fuel' E' else Bind x (Var y) E'
      | (Var x, App g us) :: E' => Bind x (App g us) E'
      | (App f ts, Var y) :: E' => Bind y (App f ts) E'
      | (App f ts, App g us) :: E' =>
          if (f =? g)%Z && (length ts =? length us)%nat
          then decompose fuel' (combine ts us ++ E')
          else Clash
      end
  end.

Inductive answer :=
| Unifier (s : Substitution)
| NotUnifiable
| OutOfFuel.

(** One variable is eliminated per unit of fuel. *)
Fixpoint unify_fuel (n : nat) (E : list equation) : answer :=
  match n with
  | O => OutOfFuel
  | S n' =>
      match decompose (S (equations_size E)) E with
      | Solved => Unifier identity
      | Clash => NotUnifiable
      | Exhausted => OutOfFuel
      | Bind x t rest =>
          if bool_decide (x ∈ vars t) then NotUnifiable
          else
            match unify_fuel n' (apply_equations (binding x t) rest) with
            | Unifier s => Unifier (compose (binding x t) s)
            | NotUnifiable => NotUnifiable
            | OutOfFuel => OutOfFuel
            end
      end
  end.

Definition unify (E : list equation) : answer :=
  unify_fuel (S (size (equations_vars E))) E.

(** *** The literal index *)

Record Literal := {
  predicate : Z;
  polarity : bool;
  arguments : list TermList
}.

(** A stored entry: [SubstitutionTree::LeafData]. *)
Record LeafData := { clause : Z; literal : Literal }.

(** An answer of a retrieval: [SLQueryResult]. *)
Record SLQueryResult := {
  result_literal : Literal;
  result_clause : Z;
  substitution : option Substitution
}.


(** The number of the tree of a literal: its predicate and its polarity,
    flipped for the complementary variant. *)
Definition header (lit : Literal) (complementary : bool) : Z :=
  (2 * predicate lit + (if xorb (polarity lit) complementary then 1 else 0))%Z.

(** The atom of a literal, as a term. *)
Definition atom (lit : Literal) : TermList :=
  App (predicate lit) (arguments lit).

Definition Literal_eqb (l1 l2 : Literal) : bool :=
  (predicate l1 =? predicate l2)%Z && Bool.eqb (polarity l1) (polarity l2) &&
  TermList_eqb (App 0%Z (arguments l1)) (App 0%Z (arguments l2)).

Definition LeafData_eqb (d1 d2 : LeafData) : bool :=
  (clause d1 =? clause d2)%Z && Literal_eqb (literal d1) (literal d2).

Fixpoint remove_first (d : LeafData) (ds : list LeafData) : list LeafData :=
  match ds with
  | [] => []
  | d' :: ds' => if LeafData_eqb d d' then ds' else d' :: remove_first d ds'
  end.

(** **** Variables

    The variables of a query, of a stored literal and of the tree are kept
    apart, in three banks.  A variable of the tree (a special variable)
    stands for a position of the stored atom: [[]] is the atom, [i :: p]
    is the argument [i] of the term at [p]. *)
Abbreviation position := (list nat).

Definition query_bank : Substitution := fun x => Var (3 * x)%Z.
Definition result_bank : Substitution := fun x => Var (3 * x + 1)%Z.
Definition special (p : position) : Z := (3 * Z.pos (encode p) + 2)%Z.


Fixpoint ground (t : TermList) : bool :=
  match t with
  | Var _ => false
  | App _ ts => forallb ground ts
  end.

(** **** Nodes

    Modelled from the spec: [SubstitutionTree], defined in
    [SubstitutionTree.hpp] and [SubstitutionTree.cpp], outside the files
    embedded here.  Section 3: a node is "either an internal node with a
    discrimination variable and a map from binding pattern to child, or a
    leaf holding a list of [LeafDatum]".  Section 4.3: "children are
    indexed by the shape of the binding (variable, functor head, or
    term)".  The binding of the discrimination variable is a variable of
    the stored literal, the head of a term whose arguments are bound
    further down, or a whole term; whole are the ground terms. *)
Inductive Binding :=
| BVar (x : Z)
| BHead (f : functor) (arity : nat)
| BTerm (t : TermList).

#[local] Unset Elimination Schemes.
Inductive Node :=
| Leaf (data : list LeafData)
| Internal (var : position) (children : list (Binding * Node)).
#[local] Set Elimination Schemes.

Fixpoint Node_induction (P : Node -> Prop)
  (HLeaf : forall ds, P (Leaf ds))
  (HInternal : forall v cs,
      Forall (fun bc : Binding * Node => P (snd bc)) cs -> P (Internal v cs))
  (n : Node) : P n :=
  match n with
  | Leaf ds => HLeaf ds
  | Internal v cs =>
      HInternal v cs
        ((fix all (l : list (Binding * Node))
            : Forall (fun bc : Binding * Node => P (snd bc)) l :=
            match l with
            | [] => @List.Forall_nil _ _
            | bc :: l' =>
                @List.Forall_cons _ _ bc l'
                  (Node_induction P HLeaf HInternal (snd bc)) (all l')
            end) cs)
  end.

Definition Binding_eqb (b b' : Binding) : bool :=
  match b, b' with
  | BVar x, BVar y => (x =? y)%Z
  | BHead f n, BHead g m => (f =? g)%Z && (n =? m)%nat
  | BTerm t, BTerm u => TermList_eqb t u
  | _, _ => false
  end.

(** The term a binding stands for: the arguments of a head are the special
    variables of the positions below. *)
Definition pattern (p : position) (b : Binding) : TermList :=
  match b with
  | BVar x => result_bank x
  | BHead f n => App f (map (fun i => Var (special (i :: p))) (seq 0 n))
  | BTerm t => t
  end.

(** The special variables a binding leaves to be bound. *)
Definition pending (p : position) (b : Binding) : list position :=
  match b with
  | BHead _ n => map (fun i => i :: p) (seq 0 n)
  | _ => []
  end.

(** The bindings that spell a term, from the position [p] down: the path
    of the term through a tree. *)
Fixpoint path_eqs (p : position) (t : TermList)
  : list (position * Binding) :=
  match t with
  | Var x => [(p, BVar x)]
  | App f ts =>
      if forallb ground ts then [(p, BTerm (App f ts))]
      else
        (p, BHead f (length ts)) ::
        (fix args (i : nat) (l : list TermList) : list (position * Binding) :=
           match l with
           | [] => []
           | a :: l' => path_eqs (i :: p) a ++ args (S i) l'
           end) 0%nat ts
  end.

(** The paths of the arguments [l], the first of which is argument [i]. *)
Fixpoint path_args (p : position) (i : nat) (l : list TermList)
  : list (position * Binding) :=
  match l with
  | [] => []
  | a :: l' => path_eqs (i :: p) a ++ path_args p (S i) l'
  end.

Definition path_of (lit : Literal) : list (position * Binding) :=
  path_eqs [] (atom lit).

(** The node that holds one datum at the end of a path. *)
Fixpoint singleton (path : list (position * Binding)) (d : LeafData) : Node :=
  match path with
  | [] => Leaf [d]
  | (v, b) :: rest => Internal v [(b, singleton rest d)]
  end.

(** Insertion follows the path: at an internal node it goes to the child
    of the binding, which it creates when there is none; at the leaf it
    appends the datum. *)
Fixpoint insert_node (path : list (position * Binding)) (d : LeafData)
  (n : Node) {struct n} : Node :=
  match n with
  | Leaf ds => Leaf (ds ++ [d])
  | Internal v cs =>
      match path with
      | [] => n
      | (_, b) :: rest =>
          Internal v
            ((fix children (cs : list (Binding * Node)) :=
                match cs with
                | [] => [(b, singleton rest d)]
                | (b', c) :: cs' =>
                    if Binding_eqb b b'
                    then (b', insert_node rest d c) :: cs'
                    else (b', c) :: children cs'
                end) cs)
      end
  end.

(** Removal follows the path and takes the datum out of the leaf. *)
Fixpoint remove_node (path : list (position * Binding)) (d : LeafData)
  (n : Node) {struct n} : Node :=
  match n with
  | Leaf ds => Leaf (remove_first d ds)
  | Internal v cs =>
      match path with
      | [] => n
      | (_, b) :: rest =>
          Internal v
            ((fix children (cs : list (Binding * Node)) :=
                match cs with
                | [] => []
                | (b', c) :: cs' =>
                    if Binding_eqb b b'
                    then (b', remove_node rest d c) :: cs'
                    else (b', c) :: children cs'
                end) cs)
      end
  end.

(** The children of a node after an insertion and after a removal below
    the binding [b]. *)
Fixpoint insert_child (b : Binding) (rest : list (position * Binding))
    (d : LeafData) (cs : list (Binding * Node)) : list (Binding * Node) :=
  match cs with
  | [] => [(b, singleton rest d)]
  | bc :: cs' =>
      if Binding_eqb b (fst bc)
      then (fst bc, insert_node rest d (snd bc)) :: cs'
      else bc :: insert_child b rest d cs'
  end.

Fixpoint remove_child (b : Binding) (rest : list (position * Binding))
    (d : LeafData) (cs : list (Binding * Node)) : list (Binding * Node) :=
  match cs with
  | [] => []
  | bc :: cs' =>
      if Binding_eqb b (fst bc)
      then (fst bc, remove_node rest d (snd bc)) :: cs'
      else bc :: remove_child b rest d cs'
  end.

(** The leaf data of a node with the bindings that lead to them, in the
    order of the traversal. *)
Fixpoint paths (n : Node) : list (list (position * Binding) * LeafData) :=
  match n with
  | Leaf ds => map (fun d => ([], d)) ds
  | Internal v cs =>
      (fix children (cs : list (Binding * Node)) :=
         match cs with
         | [] => []
         | (b, c) :: cs' =>
             map (fun pd : list (position * Binding) * LeafData =>
                    ((v, b) :: fst pd, snd pd)) (paths c)
             ++ children cs'
         end) cs
  end.


(** The equation a binding adds to the trail. *)
Definition trail_equation (vb : position * Binding) : equation :=
  (Var (special (fst vb)), pattern (fst vb) (snd vb)).


Definition solvable (trail : list equation) : bool :=
  match unify trail with Unifier _ => true | _ => false end.

(** Modelled from the spec: the unification descent of section 4.3, which
    "carries a trail that is unwound on backtrack".  The trail holds the
    equation of the query and those of the bindings passed; a child is
    entered when the trail with its binding is solvable, and the trail
    that reaches a leaf is handed out with each of its data. *)
Fixpoint retrieve (trail : list equation) (n : Node)
  : list (list equation * LeafData) :=
  match n with
  | Leaf ds => map (fun d => (trail, d)) ds
  | Internal v cs =>
      (fix children (cs : list (Binding * Node)) :=
         match cs with
         | [] => []
         | (b, c) :: cs' =>
             (if solvable (trail_equation (v, b) :: trail)
              then retrieve (trail_equation (v, b) :: trail) c
              else [])
             ++ children cs'
         end) cs
  end.

(** A tree is its root, which discriminates on the atom; the empty tree
    has no child. *)
Abbreviation SubstitutionTree := Node.
Definition empty_tree : SubstitutionTree := Internal [] [].

(** [Stack<unique_ptr<SubstitutionTree>> _trees], one tree per header. *)
Abbreviation LiteralSubstitutionTree := (gmap Z SubstitutionTree).

(** Modelled from the spec: [LiteralSubstitutionTree::getTree],
    [handleLiteral], [insert] and [remove], declared in the header and
    defined in [LiteralSubstitutionTree.cpp]: "[handleLiteral(lit, clause,
    insert?)] routes to [getTree(lit, complementary)] and then
    inserts/removes a [LeafDatum]". *)
Definition getTree (index : LiteralSubstitutionTree) (lit : Literal)
  (complementary : bool) : SubstitutionTree :=
  default empty_tree (index !! header lit complementary).

Definition handleLiteral (lit : Literal) (cls : Z) (insert : bool)
  (index : LiteralSubstitutionTree) : LiteralSubstitutionTree :=
  let d := {| clause := cls; literal := lit |} in
  let tree := getTree index lit false in
  <[header lit false :=
      if insert then insert_node (path_of lit) d tree
      else remove_node (path_of lit) d tree]> index.

Definition insert (lit : Literal) (cls : Z) := handleLiteral lit cls true.
Definition remove (lit : Literal) (cls : Z) := handleLiteral lit cls false.

(** The equation between the atoms of the query and of a stored literal. *)
Definition atoms (query stored : Literal) : list equation :=
  [(apply query_bank (atom query), apply result_bank (atom stored))].

(** The trail a descent starts with: the root variable is the atom of the
    query. *)
Definition query_trail (query : Literal) : list equation :=
  [(Var (special []), apply query_bank (atom query))].

(** Modelled from the spec: [LiteralSubstitutionTree::getUnifications],
    which "enumerates stored literals unifiable with [lit]" by a descent
    through the tree of [lit]; with [retrieveSubstitutions] an answer
    carries the unifier of its trail. *)
Definition getUnifications (index : LiteralSubstitutionTree) (lit : Literal)
  (complementary retrieveSubstitutions : bool) : list SLQueryResult :=
  map (fun td : list equation * LeafData =>
         {| result_literal := literal (snd td);
            result_clause := clause (snd td);
            substitution :=
              if retrieveSubstitutions
              then match unify (fst td) with
                   | Unifier s => Some s
                   | _ => None
                   end
              else None |})
      (retrieve (query_trail lit) (getTree index lit complementary)).

(** An insertion history, and the index it builds. *)
Inductive operation :=
| Insert (lit : Literal) (cls : Z)
| Remove (lit : Literal) (cls : Z).

Definition perform (index : LiteralSubstitutionTree) (op : operation)
  : LiteralSubstitutionTree :=
  match op with
  | Insert lit cls => insert lit cls index
  | Remove lit cls => remove lit cls index
  end.

Definition index_of (history : list operation) : LiteralSubstitutionTree :=
  fold_left perform history ∅.

(** What a history leaves stored, whatever the index does with it: the
    data inserted and not removed since, oldest first. *)
Definition record (ds : list LeafData) (op : operation) : list LeafData :=
  match op with
  | Insert lit cls => ds ++ [{| clause := cls; literal := lit |}]
  | Remove lit cls => remove_first {| clause := cls; literal := lit |} ds
  end.

Definition stored (history : list operation) : list LeafData :=
  fold_left record history [].


(** The stored literal [l] answers the query: it lives in the tree the
    query is routed to and the two atoms have a most general unifier. *)
Definition unifiable (query : Literal) (complementary : bool) (l : Literal)
  : Prop :=
  header l false = header query complementary /\
  exists s, is_mgu s (atoms query l).

(** The shape of the paths of a tree: the special variables still to be
    bound, next first.  A path fits when it binds them in this order; a
    node is well formed when its children have distinct bindings and all
    its paths fit. *)
Fixpoint fits (stack : list position) (path : list (position * Binding))
  : Prop :=
  match path, stack with
  | [], [] => True
  | (v, b) :: rest, v' :: stack' => v = v' /\ fits (pending v b ++ stack') rest
  | _, _ => False
  end.

Fixpoint well_shaped (stack : list position) (n : Node) : Prop :=
  match n with
  | Leaf _ => stack = []
  | Internal v cs =>
      match stack with
      | [] => False
      | v' :: stack' =>
          v = v' /\ NoDup (map fst cs) /\
          (fix children (cs : list (Binding * Node)) : Prop :=
             match cs with
             | [] => True
             | (b, c) :: cs' =>
                 well_shaped (pending v b ++ stack') c /\ children cs'
             end) cs
      end
  end.



(** A datum with the path of its literal. *)
Definition tag (d : LeafData) : list (position * Binding) * LeafData :=
  (path_of (literal d), d).

(** Every tree is well shaped and holds, at the end of their paths, the
    data of its header that are stored. *)
Definition represents (index : LiteralSubstitutionTree) (ds : list LeafData)
  : Prop :=
  forall h,
    well_shaped [[]] (default empty_tree (index !! h)) /\
    paths (default empty_tree (index !! h))
      ≡ₚ map tag (filter (fun d => header (literal d) false = h) ds).

(** *** An index to query: [p(f(X0))], [p(f(g(X0)))], [p(X0)], [~p(a)]
    and [q(a)], with [p = 1], [q = 2], [f = 10], [g = 11], [a = 12],
    [c = 13]. *)
Module Example.
Local Open Scope Z_scope.

Definition p (t : TermList) : Literal :=
  {| predicate := 1; polarity := true; arguments := [t] |}.
Definition not_p (t : TermList) : Literal :=
  {| predicate := 1; polarity := false; arguments := [t] |}.
Definition q (t : TermList) : Literal :=
  {| predicate := 2; polarity := true; arguments := [t] |}.
Definition f (t : TermList) : TermList := App 10 [t].
Definition g (t : TermList) : TermList := App 11 [t].
Definition a : TermList := App 12 [].
Definition c : TermList := App 13 [].

Definition history : list operation :=
  [Insert (p (f (Var 0))) 1; Insert (q a) 2; Insert (p (f (g (Var 0)))) 3;
   Insert (not_p a) 4; Insert (p (Var 0)) 5; Insert (p a) 6;
   Remove (q a) 2]%Z.

End Example.

(** *** Substitutions *)

Lemma apply_identity t : apply identity t = t.
Proof.
  induction t as [v | f args IH] using TermList_induction; [reflexivity |].
  simpl. f_equal. induction IH as [|a l Ha _ IHl]; simpl; congruence.
Qed.

Lemma apply_compose s1 s2 t :
  apply (compose s1 s2) t = apply s2 (apply s1 t).
Proof.
  induction t as [v | f args IH] using TermList_induction; [reflexivity |].
  simpl. f_equal. induction IH as [|a l Ha _ IHl]; simpl; congruence.
Qed.

Lemma vars_App f a l : vars (App f (a :: l)) = vars a ∪ vars (App f l).
Proof. reflexivity. Qed.

Lemma apply_ext s1 s2 t :
  (forall x, x ∈ vars t -> s1 x = s2 x) -> apply s1 t = apply s2 t.
Proof.
  induction t as [v | f args IH] using TermList_induction; intros Hx.
  - apply Hx. simpl. set_solver.
  - simpl. f_equal. induction IH as [|a l Ha _ IHl]; [reflexivity |].
    rewrite vars_App in Hx. simpl. f_equal.
    + apply Ha. intros x Hin. apply Hx. set_solver.
    + apply IHl. intros x Hin. apply Hx. set_solver.
Qed.

Lemma apply_binding_fresh x u t :
  x ∉ vars t -> apply (binding x u) t = t.
Proof.
  intros Hx. rewrite <- (apply_identity t) at 2. apply apply_ext.
  intros y Hy. unfold binding, identity.
  destruct (y =? x)%Z eqn:E; [| reflexivity].
  apply Z.eqb_eq in E. subst y. contradiction.
Qed.

Lemma vars_apply_binding x u t :
  vars (apply (binding x u) t) ⊆ (vars t ∖ {[x]}) ∪ vars u.
Proof.
  induction t as [v | f args IH] using TermList_induction.
  - simpl. unfold binding. destruct (v =? x)%Z eqn:E.
    + set_solver.
    + apply Z.eqb_neq in E. simpl. set_solver.
  - induction IH as [|a l Ha _ IHl]; [simpl; set_solver |].
    change (apply (binding x u) (App f (a :: l)))
      with (App f (apply (binding x u) a :: map (apply (binding x u)) l)).
    rewrite !vars_App.
    change (App f (map (apply (binding x u)) l))
      with (apply (binding x u) (App f l)).
    set_solver.
Qed.

Lemma term_size_apply s x t :
  x ∈ vars t -> (term_size (s x) <= term_size (apply s t))%nat.
Proof.
  induction t as [v | f args IH] using TermList_induction; intros Hx.
  - simpl in Hx. apply elem_of_singleton in Hx. subst v. reflexivity.
  - induction IH as [|a l Ha _ IHl]; [simpl in Hx; set_solver |].
    rewrite vars_App in Hx. apply elem_of_union in Hx as [Hx | Hx].
    + specialize (Ha Hx). simpl. lia.
    + specialize (IHl Hx). simpl in *. lia.
Qed.

(** The occurs check: a variable is not unified with a compound term it
    occurs in. *)
Lemma occurs_not_unifiable s x f ts :
  x ∈ vars (App f ts) -> s x <> apply s (App f ts).
Proof.
  intros Hx Heq. apply (f_equal term_size) in Heq.
  assert (Hlt : (term_size (s x) < term_size (apply s (App f ts)))%nat);
    [| lia].
  clear Heq. induction ts as [|a l IHl]; [simpl in Hx; set_solver |].
  rewrite vars_App in Hx. apply elem_of_union in Hx as [Hx | Hx].
  - pose proof (term_size_apply s x a Hx). simpl. lia.
  - specialize (IHl Hx). simpl in *. lia.
Qed.

(** A unifier of [x] and [t] absorbs the binding [x := t]. *)
Lemma apply_binding_unifier s x t u :
  s x = apply s t -> apply s (apply (binding x t) u) = apply s u.
Proof.
  intros Hx. rewrite <- apply_compose. apply apply_ext.
  intros y _. unfold compose, binding.
  destruct (y =? x)%Z eqn:E; [| reflexivity].
  apply Z.eqb_eq in E. subst y. symmetry. exact Hx.
Qed.

Lemma unifies_cons s e E :
  unifies s (e :: E) <-> apply s (fst e) = apply s (snd e) /\ unifies s E.
Proof. unfold unifies. rewrite Forall_cons. reflexivity. Qed.

Lemma unifies_app s E1 E2 :
  unifies s (E1 ++ E2) <-> unifies s E1 /\ unifies s E2.
Proof. unfold unifies. rewrite Forall_app. reflexivity. Qed.

Lemma unifies_apply_binding s x t E :
  s x = apply s t ->
  unifies s (apply_equations (binding x t) E) <-> unifies s E.
Proof.
  intros Hx. induction E as [|[l r] E IH]; [reflexivity |].
  simpl. rewrite !unifies_cons, IH. simpl.
  rewrite !(apply_binding_unifier s x t) by exact Hx. reflexivity.
Qed.

Lemma unifies_combine s ts us :
  length ts = length us ->
  unifies s (combine ts us) <-> map (apply s) ts = map (apply s) us.
Proof.
  revert us. induction ts as [|a ts IH]; intros [|b us] Hlen;
    try discriminate; simpl.
  - split; [reflexivity | constructor].
  - rewrite unifies_cons, IH by (simpl in Hlen; lia). simpl.
    split; [intros [-> ->]; reflexivity | intros [= -> ->]; auto].
Qed.

(** *** Decomposition *)

Lemma equations_vars_cons e E :
  equations_vars (e :: E) = vars (fst e) ∪ vars (snd e) ∪ equations_vars E.
Proof. reflexivity. Qed.

Lemma equations_vars_app E1 E2 :
  equations_vars (E1 ++ E2) = equations_vars E1 ∪ equations_vars E2.
Proof.
  unfold equations_vars. rewrite map_app. apply union_list_app_L.
Qed.

Lemma equations_vars_combine f g ts us :
  equations_vars (combine ts us) ⊆ vars (App f ts) ∪ vars (App g us).
Proof.
  revert us. induction ts as [|a ts IH]; intros us.
  { apply empty_subseteq. }
  destruct us as [|b us]; [apply empty_subseteq |].
  change (combine (a :: ts) (b :: us)) with ((a, b) :: combine ts us).
  rewrite equations_vars_cons, !vars_App.
  change (fst (a, b)) with a. change (snd (a, b)) with b.
  specialize (IH us). set_solver.
Qed.

Lemma equations_vars_apply_binding x t E :
  equations_vars (apply_equations (binding x t) E)
  ⊆ (equations_vars E ∖ {[x]}) ∪ vars t.
Proof.
  induction E as [|[l r] E IH]; [apply empty_subseteq |].
  change (apply_equations (binding x t) ((l, r) :: E))
    with ((apply (binding x t) l, apply (binding x t) r)
            :: apply_equations (binding x t) E).
  rewrite !equations_vars_cons.
  cbn [fst snd].
  pose proof (vars_apply_binding x t l).
  pose proof (vars_apply_binding x t r).
  set_solver.
Qed.

Lemma equations_size_app E1 E2 :
  equations_size (E1 ++ E2) = (equations_size E1 + equations_size E2)%nat.
Proof.
  unfold equations_size. rewrite map_app. apply list_sum_app.
Qed.

Lemma equations_size_combine ts us :
  (equations_size (combine ts us)
   <= list_sum (map term_size ts) + list_sum (map term_size us))%nat.
Proof.
  unfold equations_size.
  revert us. induction ts as [|a ts IH]; intros [|b us]; simpl; try lia.
  specialize (IH us). lia.
Qed.

Lemma decompose_enough fuel E :
  (equations_size E < fuel)%nat -> decompose fuel E <> Exhausted.
Proof.
  revert E. induction fuel as [|fuel IH]; intros E Hsize; [lia |].
  destruct E as [|[[x|f ts] [y|g us]] E']; simpl; try discriminate.
  - destruct (x =? y)%Z; [| discriminate].
    apply IH. unfold equations_size in *. simpl in Hsize. lia.
  - destruct (_ && _); [| discriminate].
    apply IH. rewrite equations_size_app.
    pose proof (equations_size_combine ts us).
    unfold equations_size in Hsize. simpl in Hsize.
    fold (equations_size E') in Hsize. lia.
Qed.

(** What a decomposition says about the unifiers of the equations. *)
Definition decompose_meaning (E : list equation) (r : decomposed) : Prop :=
  match r with
  | Solved => forall s, unifies s E
  | Clash => forall s, ~ unifies s E
  | Bind x t rest =>
      (forall s, unifies s E <-> s x = apply s t /\ unifies s rest) /\
      x ∈ equations_vars E /\
      vars t ∪ equations_vars rest ⊆ equations_vars E /\
      (x ∈ vars t -> exists f ts, t = App f ts)
  | Exhausted => True
  end.

Lemma decompose_meaning_equivalent E E' r :
  (forall s, unifies s E <-> unifies s E') ->
  equations_vars E' ⊆ equations_vars E ->
  decompose_meaning E' r -> decompose_meaning E r.
Proof.
  intros Heq Hvars. destruct r as [| |x t rest|]; simpl.
  - intros H s. apply Heq, H.
  - intros H s Hs. apply (H s), Heq, Hs.
  - intros (Hu & Hx & Hsub & Hocc). split; [| split; [| split]].
    + intros s. rewrite Heq. apply Hu.
    + set_solver.
    + set_solver.
    + exact Hocc.
  - trivial.
Qed.

Lemma decompose_meaning_Bind x t l r E :
  (forall s, apply s l = apply s r <-> s x = apply s t) ->
  x ∈ vars l ∪ vars r ->
  vars t ⊆ vars l ∪ vars r ->
  (x ∈ vars t -> exists f ts, t = App f ts) ->
  decompose_meaning ((l, r) :: E) (Bind x t E).
Proof.
  intros Heq Hx Ht Hocc. simpl. split; [| split; [| split]].
  - intros s. rewrite unifies_cons. simpl. rewrite Heq. reflexivity.
  - rewrite equations_vars_cons. simpl. set_solver.
  - rewrite equations_vars_cons. simpl. set_solver.
  - exact Hocc.
Qed.

Lemma decompose_spec fuel E : decompose_meaning E (decompose fuel E).
Proof.
  revert E. induction fuel as [|fuel IH]; intros E; [exact I |].
  destruct E as [|[[x|f ts] [y|g us]] E']; simpl decompose.
  - intros s. constructor.
  - destruct (x =? y)%Z eqn:Exy.
    + apply Z.eqb_eq in Exy. subst y.
      apply (decompose_meaning_equivalent _ E'); [| | apply IH].
      * intros s. rewrite unifies_cons. simpl. tauto.
      * rewrite equations_vars_cons. set_solver.
    + apply Z.eqb_neq in Exy. apply decompose_meaning_Bind.
      * intros s. reflexivity.
      * simpl. set_solver.
      * simpl. set_solver.
      * intros Hin. simpl in Hin. apply elem_of_singleton in Hin.
        contradiction.
  - apply decompose_meaning_Bind.
    + intros s. reflexivity.
    + simpl. set_solver.
    + set_solver.
    + eauto.
  - apply decompose_meaning_Bind.
    + intros s. split; intros Hs; symmetry; exact Hs.
    + simpl. set_solver.
    + set_solver.
    + eauto.
  - destruct ((f =? g)%Z && (length ts =? length us)%nat) eqn:Etest.
    + apply andb_true_iff in Etest as [Ef El].
      apply Z.eqb_eq in Ef. apply Nat.eqb_eq in El. subst g.
      apply (decompose_meaning_equivalent _ (combine ts us ++ E'));
        [| | apply IH].
      * intros s. rewrite unifies_cons, unifies_app, unifies_combine by exact El.
        simpl. split; [intros [[= ->] ?]; auto | intros [-> ?]; auto].
      * rewrite equations_vars_app, equations_vars_cons.
        pose proof (equations_vars_combine f f ts us). cbn [fst snd].
        set_solver.
    + simpl. intros s Hs. apply unifies_cons in Hs as [Hs _]. simpl in Hs.
      injection Hs as Hf Hmap.
      apply (f_equal (@length TermList)) in Hmap.
      rewrite !length_map in Hmap.
      apply andb_false_iff in Etest as [Ef | El].
      * apply Z.eqb_neq in Ef. contradiction.
      * apply Nat.eqb_neq in El. contradiction.
Qed.

(** *** Correctness of unification *)

Lemma unifies_compose s1 s2 E :
  unifies (compose s1 s2) E <-> unifies s2 (apply_equations s1 E).
Proof.
  induction E as [|[l r] E IH]; [split; constructor |].
  simpl. rewrite !unifies_cons, IH. simpl. rewrite !apply_compose.
  reflexivity.
Qed.

Definition unify_meaning (E : list equation) (r : answer) : Prop :=
  match r with
  | Unifier s =>
      unifies s E /\
      forall s', unifies s' E -> forall y, apply s' (s y) = s' y
  | NotUnifiable => forall s', ~ unifies s' E
  | OutOfFuel => True
  end.

Lemma unify_fuel_S n E :
  unify_fuel (S n) E =
  match decompose (S (equations_size E)) E with
  | Solved => Unifier identity
  | Clash => NotUnifiable
  | Exhausted => OutOfFuel
  | Bind x t rest =>
      if bool_decide (x ∈ vars t) then NotUnifiable
      else
        match unify_fuel n (apply_equations (binding x t) rest) with
        | Unifier s => Unifier (compose (binding x t) s)
        | NotUnifiable => NotUnifiable
        | OutOfFuel => OutOfFuel
        end
  end.
Proof. reflexivity. Qed.

Lemma unify_fuel_spec n E : unify_meaning E (unify_fuel n E).
Proof.
  revert E. induction n as [|n IH]; intros E; [exact I |].
  rewrite unify_fuel_S.
  pose proof (decompose_spec (S (equations_size E)) E) as Hd.
  destruct (decompose (S (equations_size E)) E) as [| |x t rest|];
    simpl in Hd.
  - simpl. split; [apply Hd | reflexivity].
  - exact Hd.
  - destruct Hd as (Hu & Hx & Hsub & Hocc).
    destruct (bool_decide (x ∈ vars t)) eqn:Eocc.
    + apply bool_decide_eq_true in Eocc.
      destruct (Hocc Eocc) as (f & ts & ->).
      intros s' Hs'. apply Hu in Hs' as [Hs' _].
      exact (occurs_not_unifiable s' x f ts Eocc Hs').
    + apply bool_decide_eq_false in Eocc.
      specialize (IH (apply_equations (binding x t) rest)).
      destruct (unify_fuel n (apply_equations (binding x t) rest))
        as [s| |]; simpl in IH |- *.
      * destruct IH as [Hs Hmg]. split.
        -- apply Hu. split.
           ++ rewrite apply_compose, (apply_binding_fresh x t t Eocc).
              unfold compose, binding. rewrite Z.eqb_refl. reflexivity.
           ++ apply unifies_compose. exact Hs.
        -- intros s' Hs' y. apply Hu in Hs' as [Hx' Hrest].
           apply (unifies_apply_binding s' x t rest Hx') in Hrest.
           specialize (Hmg s' Hrest).
           unfold compose, binding. destruct (y =? x)%Z eqn:Eyx.
           ++ apply Z.eqb_eq in Eyx. subst y. rewrite Hx'.
              rewrite <- apply_compose. apply apply_ext.
              intros z _. apply Hmg.
           ++ apply Hmg.
      * intros s' Hs'. apply Hu in Hs' as [Hx' Hrest].
        apply (unifies_apply_binding s' x t rest Hx') in Hrest.
        exact (IH s' Hrest).
      * exact I.
  - exact I.
Qed.

Lemma unify_fuel_enough n E :
  (size (equations_vars E) < n)%nat -> unify_fuel n E <> OutOfFuel.
Proof.
  revert E. induction n as [|n IH]; intros E Hn; [lia |].
  rewrite unify_fuel_S.
  pose proof (decompose_spec (S (equations_size E)) E) as Hd.
  pose proof (decompose_enough (S (equations_size E)) E (Nat.lt_succ_diag_r _))
    as Hfuel.
  destruct (decompose (S (equations_size E)) E) as [| |x t rest|];
    simpl in Hd; try discriminate; try contradiction.
  destruct Hd as (_ & Hx & Hsub & _).
  destruct (bool_decide (x ∈ vars t)) eqn:Eocc; [discriminate |].
  apply bool_decide_eq_false in Eocc.
  assert (Hless : (size (equations_vars (apply_equations (binding x t) rest))
                   < n)%nat).
  { pose proof (equations_vars_apply_binding x t rest) as Hb.
    assert (Hstrict : equations_vars (apply_equations (binding x t) rest)
                      ⊂ equations_vars E).
    { split; [set_solver |]. intros Hsup. apply Hsup in Hx.
      apply Hb in Hx. set_solver. }
    apply subset_size in Hstrict. lia. }
  specialize (IH _ Hless).
  destruct (unify_fuel n (apply_equations (binding x t) rest));
    [discriminate | discriminate | contradiction].
Qed.

(** [unify] always answers; a substitution it returns is a most general
    unifier, and it answers [NotUnifiable] only if there is no unifier. *)
Lemma unify_answers E : unify E <> OutOfFuel.
Proof. apply unify_fuel_enough. lia. Qed.

Lemma unify_Unifier E s : unify E = Unifier s -> is_mgu s E.
Proof.
  unfold unify. intros Hu.
  pose proof (unify_fuel_spec (S (size (equations_vars E))) E) as Hs.
  rewrite Hu in Hs. destruct Hs as [Hs Hmg]. split; [exact Hs |].
  intros s' Hs'. exists s'. intros x. symmetry. apply Hmg, Hs'.
Qed.

Lemma unify_NotUnifiable E : unify E = NotUnifiable -> forall s, ~ unifies s E.
Proof.
  unfold unify. intros Hu.
  pose proof (unify_fuel_spec (S (size (equations_vars E))) E) as Hs.
  rewrite Hu in Hs. exact Hs.
Qed.


(** *** Retrieval of unifiable literals *)

#[global] Instance atoms_unifiable_dec query l :
  Decision (exists s, is_mgu s (atoms query l)).
Proof.
  destruct (unify (atoms query l)) as [s| |] eqn:Hu.
  - left. exists s. apply unify_Unifier, Hu.
  - right. intros [s [Hs _]]. exact (unify_NotUnifiable _ Hu s Hs).
  - destruct (unify_answers _ Hu).
Defined.

#[global] Instance unifiable_dec query complementary l :
  Decision (unifiable query complementary l).
Proof. unfold unifiable. apply _. Defined.




(** **** The equality tests *)

Lemma TermList_eqb_eq t u : TermList_eqb t u = true <-> t = u.
Proof.
  revert u. induction t as [x | f ts IH] using TermList_induction;
    intros [y | g us]; simpl; try (split; [discriminate | congruence]).
  - rewrite Z.eqb_eq. split; congruence.
  - rewrite andb_true_iff, Z.eqb_eq.
    assert (Hall : forall us,
      (fix all (ts us : list TermList) : bool :=
         match ts, us with
         | [], [] => true
         | a :: ts', b :: us' => TermList_eqb a b && all ts' us'
         | _, _ => false
         end) ts us = true <-> ts = us).
    { clear us. induction IH as [|a l Ha _ IHl]; intros [|b us];
        try (split; [discriminate | congruence]); [tauto |].
      rewrite andb_true_iff, Ha, IHl. split; [intros [-> ->] | intros [= -> ->]]; auto. }
    rewrite Hall. split; [intros [-> ->] | intros [= -> ->]]; auto.
Qed.

Lemma Binding_eqb_eq b b' : Binding_eqb b b' = true <-> b = b'.
Proof.
  destruct b, b'; simpl; try (split; [discriminate | congruence]).
  - rewrite Z.eqb_eq. split; congruence.
  - rewrite andb_true_iff, Z.eqb_eq, Nat.eqb_eq.
    split; [intros [-> ->] | intros [= -> ->]]; auto.
  - rewrite TermList_eqb_eq. split; congruence.
Qed.

Lemma Literal_eqb_eq l l' : Literal_eqb l l' = true <-> l = l'.
Proof.
  destruct l as [p b ts], l' as [p' b' ts']. unfold Literal_eqb.
  cbn [predicate polarity arguments].
  rewrite !andb_true_iff, Z.eqb_eq, Bool.eqb_true_iff, TermList_eqb_eq.
  split; [intros [[-> ->] [= ->]] | intros [= -> -> ->]]; auto.
Qed.

Lemma LeafData_eqb_eq d d' : LeafData_eqb d d' = true <-> d = d'.
Proof.
  destruct d as [c l], d' as [c' l']. unfold LeafData_eqb.
  cbn [clause literal].
  rewrite andb_true_iff, Z.eqb_eq, Literal_eqb_eq.
  split; [intros [-> ->] | intros [= -> ->]]; auto.
Qed.

Lemma LeafData_eqb_refl d : LeafData_eqb d d = true.
Proof. apply LeafData_eqb_eq. reflexivity. Qed.

Lemma LeafData_eqb_neq d d' : d <> d' -> LeafData_eqb d d' = false.
Proof.
  intros Hne. destruct (LeafData_eqb d d') eqn:E; [| reflexivity].
  apply LeafData_eqb_eq in E. contradiction.
Qed.

#[global] Instance LeafData_eq_dec : EqDecision LeafData.
Proof.
  intros d d'. destruct (LeafData_eqb d d') eqn:E.
  - left. apply LeafData_eqb_eq, E.
  - right. intros ->. rewrite LeafData_eqb_refl in E. discriminate.
Defined.

(** **** Removal of one occurrence *)

Lemma remove_first_elem d ds : d ∈ ds -> ds ≡ₚ d :: remove_first d ds.
Proof.
  induction ds as [|e ds IH]; [intros H; inversion H |].
  intros Hin. simpl. destruct (LeafData_eqb d e) eqn:E.
  - apply LeafData_eqb_eq in E as ->. reflexivity.
  - apply elem_of_cons in Hin as [-> | Hin].
    + rewrite LeafData_eqb_refl in E. discriminate.
    + rewrite (IH Hin) at 1. apply Permutation_swap.
Qed.

Lemma remove_first_absent d ds : d ∉ ds -> remove_first d ds = ds.
Proof.
  induction ds as [|e ds IH]; [reflexivity |].
  intros Hin. apply not_elem_of_cons in Hin as [Hne Hin]. simpl.
  rewrite (LeafData_eqb_neq _ _ Hne), (IH Hin). reflexivity.
Qed.

Lemma remove_first_filter (P : LeafData -> Prop) `{!forall d, Decision (P d)}
    d ds :
  P d -> filter P (remove_first d ds) = remove_first d (filter P ds).
Proof.
  intros Hd. induction ds as [|e ds IH]; [reflexivity |].
  simpl. destruct (LeafData_eqb d e) eqn:E.
  - apply LeafData_eqb_eq in E as <-.
    rewrite filter_cons_True by exact Hd. simpl.
    rewrite LeafData_eqb_refl. reflexivity.
  - rewrite !filter_cons. destruct (decide (P e)); [| exact IH].
    simpl. rewrite E, IH. reflexivity.
Qed.

Lemma remove_first_filter_other (P : LeafData -> Prop)
    `{!forall d, Decision (P d)} d ds :
  ~ P d -> filter P (remove_first d ds) = filter P ds.
Proof.
  intros Hd. induction ds as [|e ds IH]; [reflexivity |].
  simpl. destruct (LeafData_eqb d e) eqn:E.
  - apply LeafData_eqb_eq in E as <-.
    rewrite filter_cons_False by exact Hd. reflexivity.
  - rewrite !filter_cons, IH. reflexivity.
Qed.


(** **** Banks and positions *)





Lemma apply_ground s t : ground t = true -> apply s t = t.
Proof.
  induction t as [v | f ts IH] using TermList_induction; [discriminate |].
  simpl. intros Hg. f_equal.
  induction IH as [|a l Ha _ IHl]; [reflexivity |].
  simpl in Hg. apply andb_true_iff in Hg as [Hga Hgl].
  simpl. rewrite (Ha Hga), (IHl Hgl). reflexivity.
Qed.




(** **** Paths *)

Lemma path_eqs_App p f ts :
  path_eqs p (App f ts) =
  if forallb ground ts then [(p, BTerm (App f ts))]
  else (p, BHead f (length ts)) :: path_args p 0 ts.
Proof.
  simpl. destruct (forallb ground ts); [reflexivity |]. f_equal.
  generalize 0%nat. induction ts as [|a l IH]; intros i; [reflexivity |].
  simpl. f_equal. apply IH.
Qed.



(** A solution of the bindings of a path gives the special variable of
    its position the value of the stored term. *)
Lemma path_solution s t p :
  unifies s (map trail_equation (path_eqs p t)) ->
  s (special p) = apply s (apply result_bank t).
Proof.
  revert p. induction t as [x | f ts IH] using TermList_induction; intros p.
  - simpl. rewrite unifies_cons. intros [Hx _]. exact Hx.
  - rewrite path_eqs_App. destruct (forallb ground ts) eqn:Hg.
    + simpl map. rewrite unifies_cons. intros [Hx _].
      cbn [trail_equation fst snd pattern] in Hx. simpl apply at 1 in Hx.
      rewrite (apply_ground result_bank (App f ts)) by exact Hg. exact Hx.
    + rewrite map_cons, unifies_cons. intros [Hx Hrest].
      cbn [trail_equation fst snd pattern] in Hx. simpl in Hx. rewrite Hx.
      simpl. f_equal. rewrite !map_map. clear Hx Hg.
      revert Hrest. generalize 0%nat.
      induction IH as [|a l Ha _ IHl]; intros i Hrest; [reflexivity |].
      simpl in Hrest. rewrite map_app, unifies_app in Hrest.
      destruct Hrest as [H1 H2]. simpl. rewrite (Ha _ H1). f_equal.
      apply IHl, H2.
Qed.



(** **** Nodes, unfolded *)

Lemma paths_Internal v cs :
  paths (Internal v cs) =
  flat_map (fun bc : Binding * Node =>
              map (fun pd : list (position * Binding) * LeafData =>
                     ((v, fst bc) :: fst pd, snd pd)) (paths (snd bc))) cs.
Proof.
  simpl. induction cs as [|[b c] cs IH]; [reflexivity |].
  simpl. rewrite IH. reflexivity.
Qed.


Lemma well_shaped_Internal v' stack v cs :
  well_shaped (v' :: stack) (Internal v cs) <->
  v = v' /\ NoDup (map fst cs) /\
  Forall (fun bc : Binding * Node =>
            well_shaped (pending v (fst bc) ++ stack) (snd bc)) cs.
Proof.
  simpl.
  assert (Hc : (fix children (cs : list (Binding * Node)) : Prop :=
             match cs with
             | [] => True
             | (b, c) :: cs' =>
                 well_shaped (pending v b ++ stack) c /\ children cs'
             end) cs <->
          Forall (fun bc : Binding * Node =>
            well_shaped (pending v (fst bc) ++ stack) (snd bc)) cs).
  { induction cs as [|[b c] cs IH].
    - split; [constructor | trivial].
    - rewrite Forall_cons, IH. reflexivity. }
  rewrite Hc. reflexivity.
Qed.

Lemma insert_node_Internal v' b rest d v cs :
  insert_node ((v', b) :: rest) d (Internal v cs) =
  Internal v (insert_child b rest d cs).
Proof.
  simpl. f_equal. induction cs as [|[b' c] cs IH]; [reflexivity |].
  simpl. destruct (Binding_eqb b b'); [reflexivity |]. f_equal. exact IH.
Qed.

Lemma remove_node_Internal v' b rest d v cs :
  remove_node ((v', b) :: rest) d (Internal v cs) =
  Internal v (remove_child b rest d cs).
Proof.
  simpl. f_equal. induction cs as [|[b' c] cs IH]; [reflexivity |].
  simpl. destruct (Binding_eqb b b'); [reflexivity |]. f_equal. exact IH.
Qed.

(** **** The shape of paths *)

Lemma fits_path_eqs t p stack rest :
  fits stack rest -> fits (p :: stack) (path_eqs p t ++ rest).
Proof.
  revert p stack rest.
  induction t as [x | f ts IH] using TermList_induction;
    intros p stack rest Hr.
  - simpl. auto.
  - rewrite path_eqs_App. destruct (forallb ground ts).
    + simpl. auto.
    + cbn [app fits pending]. split; [reflexivity |].
      revert Hr. generalize 0%nat. clear -IH.
      induction IH as [|a l Ha _ IHl]; intros i Hr; [exact Hr |].
      simpl. rewrite <- app_assoc. apply Ha, IHl, Hr.
Qed.

Lemma fits_path_of lit : fits [[]] (path_of lit).
Proof.
  unfold path_of. rewrite <- (app_nil_r (path_eqs [] (atom lit))).
  apply fits_path_eqs. exact I.
Qed.

Lemma singleton_spec path d stack :
  fits stack path ->
  well_shaped stack (singleton path d) /\
  paths (singleton path d) = [(path, d)].
Proof.
  revert stack. induction path as [|[v b] rest IH]; intros stack Hf.
  - destruct stack; [| destruct Hf]. split; reflexivity.
  - destruct stack as [|v' stack]; [destruct Hf |].
    destruct Hf as [<- Hf]. destruct (IH _ Hf) as [Hw Hp].
    cbn [singleton]. split.
    + apply well_shaped_Internal. split; [reflexivity |].
      split; [apply NoDup_singleton |]. constructor; [exact Hw | constructor].
    + rewrite paths_Internal. simpl. rewrite Hp. reflexivity.
Qed.

(** **** Insertion and removal *)

Lemma insert_child_spec v stack b rest d cs :
  Forall (fun bc : Binding * Node => forall st path,
            well_shaped st (snd bc) -> fits st path ->
            well_shaped st (insert_node path d (snd bc)) /\
            paths (insert_node path d (snd bc))
              ≡ₚ paths (snd bc) ++ [(path, d)]) cs ->
  NoDup (map fst cs) ->
  Forall (fun bc : Binding * Node =>
            well_shaped (pending v (fst bc) ++ stack) (snd bc)) cs ->
  fits (pending v b ++ stack) rest ->
  NoDup (map fst (insert_child b rest d cs)) /\
  Forall (fun bc : Binding * Node =>
            well_shaped (pending v (fst bc) ++ stack) (snd bc))
    (insert_child b rest d cs) /\
  (forall x, x ∈ map fst (insert_child b rest d cs) ->
             x = b \/ x ∈ map fst cs) /\
  paths (Internal v (insert_child b rest d cs))
    ≡ₚ paths (Internal v cs) ++ [((v, b) :: rest, d)].
Proof.
  intros HIH Hnd Hwf Hfit. rewrite !paths_Internal.
  induction cs as [|[b' c] cs IHcs].
  - destruct (singleton_spec rest d _ Hfit) as [Hw Hp]. simpl.
    split; [apply NoDup_singleton |].
    split; [constructor; [exact Hw | constructor] |].
    split; [intros x Hx; left; apply list_elem_of_singleton in Hx; exact Hx |].
    rewrite Hp. reflexivity.
  - apply Forall_cons in HIH as [Hc HIH]. apply Forall_cons in Hwf as [Hwc Hwf].
    simpl in Hnd. apply NoDup_cons in Hnd as [Hnb Hnd].
    cbn [insert_child fst snd]. destruct (Binding_eqb b b') eqn:E.
    + apply Binding_eqb_eq in E. subst b'.
      destruct (Hc _ _ Hwc Hfit) as [Hw Hp]. cbn [fst snd] in *.
      split; [simpl; apply NoDup_cons; auto |].
      split; [constructor; [exact Hw | exact Hwf] |].
      split; [intros x Hx; right; exact Hx |].
      cbn [flat_map fst snd]. rewrite Hp, map_app. simpl.
      rewrite <- !app_assoc. apply Permutation_app_head, Permutation_app_comm.
    + destruct (IHcs HIH Hnd Hwf) as (Hnd' & Hwf' & Hkeys & Hp).
      split.
      { simpl. apply NoDup_cons. split; [| exact Hnd'].
        intros Hin. apply Hkeys in Hin as [-> | Hin]; [| contradiction].
        assert (Binding_eqb b b = true) by (apply Binding_eqb_eq; reflexivity).
        congruence. }
      split; [constructor; [exact Hwc | exact Hwf'] |].
      split.
      { intros x Hx. simpl in Hx. apply elem_of_cons in Hx as [-> | Hx].
        - right. simpl. apply elem_of_cons. auto.
        - apply Hkeys in Hx as [-> | Hx]; [auto |].
          right. simpl. apply elem_of_cons. auto. }
      cbn [flat_map fst snd]. rewrite Hp, <- app_assoc. reflexivity.
Qed.

Lemma insert_node_spec d n :
  forall stack path,
    well_shaped stack n -> fits stack path ->
    well_shaped stack (insert_node path d n) /\
    paths (insert_node path d n) ≡ₚ paths n ++ [(path, d)].
Proof.
  induction n as [ds | v cs IH] using Node_induction;
    intros stack path Hw Hf.
  - simpl in Hw. subst stack. destruct path as [|[v b] rest]; [| destruct Hf].
    split; [reflexivity |]. simpl. rewrite map_app. reflexivity.
  - destruct stack as [|v' stack]; [destruct Hw |].
    destruct path as [|[v0 b] rest]; [destruct Hf |].
    destruct Hf as [-> Hf].
    apply well_shaped_Internal in Hw as (-> & Hnd & Hwf).
    rewrite insert_node_Internal.
    destruct (insert_child_spec v' stack b rest d cs IH Hnd Hwf Hf)
      as (Hnd' & Hwf' & _ & Hp).
    split; [| exact Hp].
    apply well_shaped_Internal. auto.
Qed.

Lemma elem_of_paths_Internal v cs path d :
  (path, d) ∈ paths (Internal v cs) <->
  exists b c rest, path = (v, b) :: rest /\ (b, c) ∈ cs /\ (rest, d) ∈ paths c.
Proof.
  rewrite paths_Internal, list_elem_of_In, in_flat_map. split.
  - intros ([b c] & Hin & Hpd). apply in_map_iff in Hpd as ([p e] & Heq & Hp).
    simpl in Heq. injection Heq as <- <-.
    exists b, c, p. rewrite <- !list_elem_of_In in *. auto.
  - intros (b & c & rest & -> & Hin & Hp). exists (b, c).
    rewrite <- list_elem_of_In. split; [exact Hin |].
    apply in_map_iff. exists (rest, d). rewrite <- list_elem_of_In. auto.
Qed.

Lemma remove_child_spec v stack b rest d cs :
  Forall (fun bc : Binding * Node => forall st path,
            well_shaped st (snd bc) -> fits st path ->
            well_shaped st (remove_node path d (snd bc)) /\
            ((path, d) ∈ paths (snd bc) ->
             paths (snd bc) ≡ₚ (path, d) :: paths (remove_node path d (snd bc)))
            /\
            ((path, d) ∉ paths (snd bc) ->
             paths (remove_node path d (snd bc)) = paths (snd bc))) cs ->
  NoDup (map fst cs) ->
  Forall (fun bc : Binding * Node =>
            well_shaped (pending v (fst bc) ++ stack) (snd bc)) cs ->
  fits (pending v b ++ stack) rest ->
  map fst (remove_child b rest d cs) = map fst cs /\
  Forall (fun bc : Binding * Node =>
            well_shaped (pending v (fst bc) ++ stack) (snd bc))
    (remove_child b rest d cs) /\
  (((v, b) :: rest, d) ∈ paths (Internal v cs) ->
   paths (Internal v cs)
     ≡ₚ ((v, b) :: rest, d) :: paths (Internal v (remove_child b rest d cs)))
  /\
  (((v, b) :: rest, d) ∉ paths (Internal v cs) ->
   paths (Internal v (remove_child b rest d cs)) = paths (Internal v cs)).
Proof.
  intros HIH Hnd Hwf Hfit.
  induction cs as [|[b' c] cs IHcs].
  - simpl. split; [reflexivity |]. split; [constructor |].
    split; [| reflexivity].
    intros Hin. inversion Hin.
  - apply Forall_cons in HIH as [Hc HIH]. apply Forall_cons in Hwf as [Hwc Hwf].
    simpl in Hnd. apply NoDup_cons in Hnd as [Hnb Hnd].
    cbn [remove_child fst snd]. destruct (Binding_eqb b b') eqn:E.
    + apply Binding_eqb_eq in E. subst b'.
      destruct (Hc _ _ Hwc Hfit) as (Hw & Hin & Hout). cbn [fst snd] in *.
      split; [reflexivity |].
      split; [constructor; [exact Hw | exact Hwf] |].
      assert (Hiff : ((v, b) :: rest, d) ∈ paths (Internal v ((b, c) :: cs))
                     <-> (rest, d) ∈ paths c).
      { rewrite elem_of_paths_Internal. split.
        - intros (b0 & c0 & rest0 & [= <- <-] & Hbc & Hp).
          apply elem_of_cons in Hbc as [[= <-] | Hbc]; [exact Hp |].
          destruct Hnb. apply list_elem_of_fmap. exists (b, c0). auto.
        - intros Hp. exists b, c, rest. split; [reflexivity |].
          split; [apply elem_of_cons; auto | exact Hp]. }
      rewrite !paths_Internal in *. cbn [flat_map fst snd]. split.
      * intros Hp. apply Hiff in Hp. rewrite (Hin Hp) at 1. reflexivity.
      * intros Hp. rewrite Hiff in Hp. rewrite (Hout Hp). reflexivity.
    + destruct (IHcs HIH Hnd Hwf) as (Hkeys & Hwf' & Hin & Hout).
      split; [simpl; rewrite Hkeys; reflexivity |].
      split; [constructor; [exact Hwc | exact Hwf'] |].
      assert (Hiff : ((v, b) :: rest, d) ∈ paths (Internal v ((b', c) :: cs))
                     <-> ((v, b) :: rest, d) ∈ paths (Internal v cs)).
      { rewrite !elem_of_paths_Internal. split.
        - intros (b0 & c0 & rest0 & [= <- <-] & Hbc & Hp).
          apply elem_of_cons in Hbc as [[= <- <-] | Hbc].
          + assert (Binding_eqb b b = true)
              by (apply Binding_eqb_eq; reflexivity).
            congruence.
          + eauto 6.
        - intros (b0 & c0 & rest0 & Heq & Hbc & Hp).
          exists b0, c0, rest0. split; [exact Heq |].
          split; [apply elem_of_cons; auto | exact Hp]. }
      rewrite Hiff. rewrite !paths_Internal in *. cbn [flat_map fst snd].
      split.
      * intros Hp. rewrite (Hin Hp) at 1. symmetry. apply Permutation_middle.
      * intros Hp. rewrite (Hout Hp). reflexivity.
Qed.

Lemma remove_node_spec d n :
  forall stack path,
    well_shaped stack n -> fits stack path ->
    well_shaped stack (remove_node path d n) /\
    ((path, d) ∈ paths n -> paths n ≡ₚ (path, d) :: paths (remove_node path d n))
    /\
    ((path, d) ∉ paths n -> paths (remove_node path d n) = paths n).
Proof.
  induction n as [ds | v cs IH] using Node_induction;
    intros stack path Hw Hf.
  - simpl in Hw. subst stack. destruct path as [|[v b] rest]; [| destruct Hf].
    split; [reflexivity |]. simpl.
    assert (Hiff : ([] : list (position * Binding), d)
                     ∈ map (fun d0 => ([], d0)) ds <-> d ∈ ds).
    { rewrite list_elem_of_fmap. split.
      - intros (d0 & [= ->] & Hin). exact Hin.
      - intros Hin. eauto. }
    rewrite Hiff. split.
    + intros Hin. rewrite (remove_first_elem d ds Hin) at 1. reflexivity.
    + intros Hin. rewrite (remove_first_absent d ds Hin). reflexivity.
  - destruct stack as [|v' stack]; [destruct Hw |].
    destruct path as [|[v0 b] rest]; [destruct Hf |].
    destruct Hf as [-> Hf].
    apply well_shaped_Internal in Hw as (-> & Hnd & Hwf).
    rewrite remove_node_Internal.
    destruct (remove_child_spec v' stack b rest d cs IH Hnd Hwf Hf)
      as (Hkeys & Hwf' & Hin & Hout).
    split; [| split; [exact Hin | exact Hout]].
    apply well_shaped_Internal. rewrite Hkeys. auto.
Qed.

(** **** The descent *)




(** **** The index of a history *)

Lemma represents_empty : represents ∅ [].
Proof.
  intros h. rewrite lookup_empty. simpl. split; [| reflexivity].
  split; [reflexivity |]. split; [apply NoDup_nil_2 | exact I].
Qed.

Lemma elem_of_map_tag d ds : tag d ∈ map tag ds <-> d ∈ ds.
Proof.
  rewrite list_elem_of_fmap. split.
  - intros (d' & Heq & Hin). injection Heq as _ ->. exact Hin.
  - intros Hin. eauto.
Qed.

Lemma default_Some {A} (x y : A) : default x (Some y) = y.
Proof. reflexivity. Qed.

Lemma represents_perform index ds op :
  represents index ds -> represents (perform index op) (record ds op).
Proof.
  intros Hrep h. destruct op as [lit cls | lit cls];
    cbn [perform record]; unfold insert, remove, handleLiteral, getTree;
    set (d := {| clause := cls; literal := lit |});
    set (h0 := header lit false);
    destruct (Hrep h0) as [Hw0 Hp0];
    destruct (decide (h = h0)) as [-> | Hne].
  - rewrite lookup_insert_eq, default_Some.
    destruct (insert_node_spec d _ _ _ Hw0 (fits_path_of lit)) as [Hw Hp].
    split; [exact Hw |].
    rewrite Hp, Hp0, filter_app, map_app.
    rewrite (filter_cons_True _ d) by reflexivity. reflexivity.
  - rewrite lookup_insert_ne by auto. destruct (Hrep h) as [Hw Hp].
    split; [exact Hw |].
    rewrite Hp, filter_app.
    rewrite (filter_cons_False _ d) by (simpl; fold h0; auto).
    rewrite filter_nil, app_nil_r. reflexivity.
  - rewrite lookup_insert_eq, default_Some.
    destruct (remove_node_spec d _ _ _ Hw0 (fits_path_of lit))
      as (Hw & Hin & Hout).
    split; [exact Hw |].
    rewrite (remove_first_filter (fun d => header (literal d) false = h0))
      by reflexivity.
    set (stored_here := filter (fun d => header (literal d) false = h0) ds)
      in *.
    change (path_of lit, d) with (tag d) in Hin, Hout.
    destruct (decide (d ∈ stored_here)) as [Hd | Hd].
    + assert (Ht : tag d ∈ paths (default empty_tree (index !! h0)))
        by (rewrite Hp0; apply elem_of_map_tag, Hd).
      apply Hin in Ht. rewrite Ht in Hp0.
      rewrite (remove_first_elem d stored_here Hd) in Hp0 at 1.
      simpl in Hp0. apply Permutation_cons_inv in Hp0. exact Hp0.
    + assert (Ht : tag d ∉ paths (default empty_tree (index !! h0)))
        by (rewrite Hp0, elem_of_map_tag; exact Hd).
      rewrite (Hout Ht), (remove_first_absent d stored_here Hd). exact Hp0.
  - rewrite lookup_insert_ne by auto. destruct (Hrep h) as [Hw Hp].
    split; [exact Hw |].
    rewrite remove_first_filter_other by (simpl; fold h0; auto). exact Hp.
Qed.

Lemma represents_fold history :
  forall index ds,
    represents index ds ->
    represents (fold_left perform history index) (fold_left record history ds).
Proof.
  induction history as [|op history IH]; intros index ds Hrep; [exact Hrep |].
  simpl. apply IH, represents_perform, Hrep.
Qed.

Lemma represents_history history :
  represents (index_of history) (stored history).
Proof. apply represents_fold, represents_empty. Qed.

(** **** The answers of [getUnifications] *)



Lemma paths_tagged index ds h pd :
  represents index ds ->
  pd ∈ paths (default empty_tree (index !! h)) ->
  pd = tag (snd pd) /\ snd pd ∈ ds /\ header (literal (snd pd)) false = h.
Proof.
  intros Hrep Hin. destruct (Hrep h) as [_ Hp]. rewrite Hp in Hin.
  apply list_elem_of_fmap in Hin as (d & -> & Hd).
  apply list_elem_of_filter in Hd as [Hh Hd]. auto.
Qed.

(** The invariant of section 3: along every path of a tree of the index,
    the bindings spell the literal of each datum of the leaf; whatever
    solves them gives the root variable the value of its atom. *)
Lemma paths_spell_literals history h path d s :
  (path, d) ∈ paths (default empty_tree (index_of history !! h)) ->
  header (literal d) false = h /\ path = path_of (literal d) /\
  (unifies s (map trail_equation path) ->
   s (special []) = apply s (apply result_bank (atom (literal d)))).
Proof.
  intros Hin.
  destruct (paths_tagged _ _ _ _ (represents_history history) Hin)
    as (Heq & _ & Hh).
  cbn [snd] in *. injection Heq as Hpath.
  split; [exact Hh |]. split; [exact Hpath |].
  rewrite Hpath. apply path_solution.
Qed.







(** The answers to [p(f(g(c)))] on the example: [p(f(X0))], [p(f(g(X0)))]
    and [p(X0)], and neither [p(a)] nor a literal of another tree. *)
Lemma getUnifications_example :
  map result_clause
    (getUnifications (index_of Example.history)
       (Example.p (Example.f (Example.g Example.c))) false false)
  = [1; 3; 5]%Z.
Proof. reflexivity. Qed.


End LiteralIndex.



(** ** [Kernel/Rebalancing/Inverters.cpp]: the syntax of an inversion *)

Module InversionSyntax.
Import Inverters LiteralIndex.
Local Open Scope Z_scope.

(** The arguments of a term other than the one at position [i]. *)
Fixpoint siblings (l : list TermList) (i : Z) : list TermList :=
  match l with
  | [] => []
  | a :: l' => if i =? 0 then l' else a :: siblings l' (i - 1)
  end.

Section Variables.
Context {sig : Signature}.

(** [invertTop] wraps [toWrap] using only the other arguments of [topTerm]:
    every variable of [toWrap] occurs in the term it returns, and every
    variable of that term occurs in [toWrap] or in an argument of [topTerm]
    at a position other than [topIdx].  The argument that is isolated is not
    used. *)
Theorem invertTop_variables (ctxt : InversionContext) (out : TermList) :
  (forall s, vars (one s) = ∅) ->
  well_formed ctxt ->
  invertTop ctxt = Returned out ->
  vars (toWrap ctxt) ⊆ vars out /\
  vars out ⊆
    vars (toWrap ctxt) ∪
    ⋃ (map vars (siblings (Term_args (topTerm ctxt)) (topIdx ctxt))).
Proof.
  intros Hone [Hlen Hidx].
  destruct ctxt as [[f args] idx w].
  unfold invertTop, doInvertMulInt, tryInvertMulInt, otherIdx, nthArgument,
    arity in *.
  cbn [topTerm topIdx toWrap Term_functor Term_args] in *.
  destruct (negb (canInvertTop _)); [discriminate |].
  destruct (isInterpretedFunction f).
  - destruct (interpretFunction f) as [s|s|s|s| | |n]; cbn [arity_of] in Hlen;
      try discriminate.
    + (* add *)
      destruct (length2 _ Hlen) as (a0 & a1 & ->).
      intros [= <-]. pose proof (Hone s).
      assert (idx = 0 \/ idx = 1) as [-> | ->] by (simpl in Hidx; lia);
        simpl; set_solver.
    + (* minus *)
      intros [= <-]. simpl. set_solver.
    + (* mul *)
      destruct (length2 _ Hlen) as (a0 & a1 & ->).
      pose proof (Hone s) as Hs.
      assert (idx = 0 \/ idx = 1) as [-> | ->] by (simpl in Hidx; lia);
        destruct s; simpl;
        repeat case_match; intros [= <-]; simpl; rewrite ?Hs; set_solver.
    + (* store *)
      destruct (negb (idx =? 2)) eqn:E; [discriminate |].
      apply negb_false_iff, Z.eqb_eq in E. subst idx.
      destruct (length3 _ Hlen) as (a0 & a1 & a2 & ->).
      intros [= <-]. simpl. set_solver.
  - destruct (negb (termAlgebraCons f)); [discriminate |].
    intros [= <-]. simpl. set_solver.
Qed.

(** Whether the top symbol can be inverted is decided by [topTerm] and
    [topIdx] alone: the term on the other side of the equation plays no
    part. *)
Theorem canInvertTop_ignores_toWrap (t : Term) (idx : Z) (w w' : TermList) :
  canInvertTop {| topTerm := t; topIdx := idx; toWrap := w |} =
  canInvertTop {| topTerm := t; topIdx := idx; toWrap := w' |}.
Proof.
  unfold canInvertTop, canInvertMulInt, tryInvertMulInt, otherIdx.
  cbn [topTerm topIdx toWrap].
  destruct (isInterpretedFunction (Term_functor t)); [| reflexivity].
  destruct (interpretFunction (Term_functor t)) as [s|s|s|s| | |n];
    try reflexivity.
  destruct s; try reflexivity.
  destruct (tryInterpretConstant_Int _) as [a|]; [| reflexivity].
  destruct (a =? 1); [reflexivity |].
  destruct (a =? -1); reflexivity.
Qed.
End Variables.

Lemma invertTop_variables_witness :
  vars (Var 1) ⊆
    vars (add (sig := Example.signature) IntS (Var 1)
            (minus (sig := Example.signature) IntS (Example.num 53))).
Proof.
  refine (proj1 (invertTop_variables (sig := Example.signature)
                   Example.sum_ctxt _ _ _ _)).
  - intros s. reflexivity.
  - split; [reflexivity | simpl; lia].
  - reflexivity.
Defined.

End InversionSyntax.

(** ** [Kernel/KBO.hpp]: the special weights of the ordering *)

Module KBO.
Local Open Scope Z_scope.
Local Open Scope string_scope.

Definition SPECIAL_WEIGHT_IDENT_VAR : string := "$var".
Definition SPECIAL_WEIGHT_IDENT_INTRODUCED : string := "$introduced".
Definition SPECIAL_WEIGHT_IDENT_DEFAULT_WEIGHT : string := "$default".
Definition SPECIAL_WEIGHT_IDENT_NUM_INT : string := "$int".
Definition SPECIAL_WEIGHT_IDENT_NUM_RAT : string := "$rat".
Definition SPECIAL_WEIGHT_IDENT_NUM_REAL : string := "$real".

(** [using KboWeight = unsigned;] *)
Definition KboWeight := Z.

(** [KboSpecialWeights<FuncSigTraits>]. *)
Record KboSpecialWeights := {
  _variableWeight : KboWeight;
  _numInt : KboWeight;
  _numRat : KboWeight;
  _numReal : KboWeight
}.

(** [tryAssign(name, weight)]: the value returned and the object after the
    call. *)
Definition tryAssign (name : string) (weight : Z) (w : KboSpecialWeights)
  : bool * KboSpecialWeights :=
  if String.eqb name SPECIAL_WEIGHT_IDENT_VAR then
    (true, {| _variableWeight := weight; _numInt := _numInt w;
              _numRat := _numRat w; _numReal := _numReal w |})
  else if String.eqb name SPECIAL_WEIGHT_IDENT_NUM_INT then
    (true, {| _variableWeight := _variableWeight w; _numInt := weight;
              _numRat := _numRat w; _numReal := _numReal w |})
  else if String.eqb name SPECIAL_WEIGHT_IDENT_NUM_REAL then
    (true, {| _variableWeight := _variableWeight w; _numInt := _numInt w;
              _numRat := _numRat w; _numReal := weight |})
  else if String.eqb name SPECIAL_WEIGHT_IDENT_NUM_RAT then
    (true, {| _variableWeight := _variableWeight w; _numInt := _numInt w;
              _numRat := weight; _numReal := _numReal w |})
  else (false, w).

Definition dflt : KboSpecialWeights :=
  {| _variableWeight := 1; _numInt := 1; _numRat := 1; _numReal := 1 |}.

(** The member a special name stands for, to state what [tryAssign]
    stores. *)
Definition member (name : string) : option (KboSpecialWeights -> KboWeight) :=
  if String.eqb name SPECIAL_WEIGHT_IDENT_VAR then Some _variableWeight
  else if String.eqb name SPECIAL_WEIGHT_IDENT_NUM_INT then Some _numInt
  else if String.eqb name SPECIAL_WEIGHT_IDENT_NUM_RAT then Some _numRat
  else if String.eqb name SPECIAL_WEIGHT_IDENT_NUM_REAL then Some _numReal
  else None.

(** A sequence of calls of [tryAssign] on one object, first call first. *)
Fixpoint assignments (l : list (string * Z)) (w : KboSpecialWeights)
  : KboSpecialWeights :=
  match l with
  | [] => w
  | (name, weight) :: l' => assignments l' (snd (tryAssign name weight w))
  end.

(** The weight of the last entry for [name] in [l]. *)
Fixpoint last_weight (name : string) (l : list (string * Z)) : option Z :=
  match l with
  | [] => None
  | (name', weight) :: l' =>
      match last_weight name l' with
      | Some x => Some x
      | None => if String.eqb name name' then Some weight else None
      end
  end.

Ltac names :=
  unfold SPECIAL_WEIGHT_IDENT_VAR, SPECIAL_WEIGHT_IDENT_NUM_INT,
    SPECIAL_WEIGHT_IDENT_NUM_RAT, SPECIAL_WEIGHT_IDENT_NUM_REAL,
    SPECIAL_WEIGHT_IDENT_INTRODUCED, SPECIAL_WEIGHT_IDENT_DEFAULT_WEIGHT in *.

Ltac by_name name :=
  destruct (String.eqb_spec name "$var");
  [subst name |
   destruct (String.eqb_spec name "$int");
   [subst name |
    destruct (String.eqb_spec name "$real");
    [subst name |
     destruct (String.eqb_spec name "$rat"); [subst name |]]]].

(** [tryAssign] succeeds on the four names [$var], [$int], [$real] and
    [$rat] and on no other: every other name, [$introduced] and [$default]
    among them, is refused and the weights are left as they were. *)
Theorem tryAssign_names (name : string) (weight : Z) (w : KboSpecialWeights) :
  (fst (tryAssign name weight w) = true <->
   name = "$var" \/ name = "$int" \/ name = "$real" \/ name = "$rat") /\
  (fst (tryAssign name weight w) = false -> snd (tryAssign name weight w) = w) /\
  fst (tryAssign SPECIAL_WEIGHT_IDENT_INTRODUCED weight w) = false /\
  fst (tryAssign SPECIAL_WEIGHT_IDENT_DEFAULT_WEIGHT weight w) = false.
Proof.
  split; [| split; [| split; reflexivity]].
  - unfold tryAssign. names. by_name name; simpl; try tauto.
    split; [discriminate | intros [?|[?|[?|?]]]; contradiction].
  - unfold tryAssign. names. by_name name; simpl; try discriminate.
    reflexivity.
Qed.

(** A successful call stores the weight in the member of that name and
    leaves the three other members as they were. *)
Lemma tryAssign_member (name name' : string) (weight : Z)
    (w : KboSpecialWeights) (get : KboSpecialWeights -> KboWeight) :
  member name' = Some get ->
  get (snd (tryAssign name weight w)) =
  if String.eqb name' name then weight else get w.
Proof.
  unfold member, tryAssign. names. intros Hm.
  repeat match goal with
         | H : context [String.eqb ?a ?b] |- _ =>
             destruct (String.eqb_spec a b); subst
         | |- context [String.eqb ?a ?b] =>
             destruct (String.eqb_spec a b); subst
         end;
    try discriminate; try congruence;
    injection Hm as <-; try reflexivity; congruence.
Qed.

(** After any sequence of calls, a member holds the weight of the last call
    that named it, or its initial value when no call named it: for [dflt],
    the weight 1. *)
Theorem assignments_last_wins (l : list (string * Z)) (name : string)
    (w : KboSpecialWeights) (get : KboSpecialWeights -> KboWeight) :
  member name = Some get ->
  get (assignments l w) =
  match last_weight name l with Some x => x | None => get w end.
Proof.
  intros Hm. revert w. induction l as [|[name' weight] l IH]; intros w.
  - reflexivity.
  - cbn [assignments last_weight]. rewrite IH.
    destruct (last_weight name l); [reflexivity |].
    rewrite (tryAssign_member name' name weight w get Hm).
    destruct (String.eqb name name'); reflexivity.
Qed.

Lemma assignments_last_wins_witness :
  _variableWeight (assignments [("$var", 3); ("f", 9); ("$var", 2)] dflt) = 2
  /\ _numInt (assignments [("$var", 3); ("f", 9); ("$var", 2)] dflt) = 1.
Proof.
  split.
  - apply (assignments_last_wins [("$var", 3); ("f", 9); ("$var", 2)]
             "$var" dflt _variableWeight).
    reflexivity.
  - apply (assignments_last_wins [("$var", 3); ("f", 9); ("$var", 2)]
             "$int" dflt _numInt).
    reflexivity.
Defined.

End KBO.
